(** * py-social-force: the force terms of [pysocialforce/forces.py]

    A shallow embedding of the [Force] base class and of the force variants
    GoalAttractiveForce, SpaceRepulsiveForce, GroupCoherenceForce,
    GroupCoherenceForceAlt, GroupRepulsiveForce and GroupGazeForce, followed
    by theorems about them.  PedRepulsiveForce, which only combines the
    pairwise potential and the field of view of other modules, is left out.

    Modelling conventions.
    - A numpy [float64] is an ideal real number ([R]).  The one place where
      the source can produce a NaN out of finite inputs that are not zero,
      [np.arccos], returns an [option R] whose [None] is the NaN.  A division
      by zero, which numpy turns into an infinity or a NaN, is the
      unspecified real [x / 0].
    - An [N x 2] array is a [list vec]; the state matrix is a list of rows,
      one [agent] record per row, its fields named after the column slices
      the source reads ([0:2], [2:4], [4:6], [6:7]).
    - A Python attribute that may hold [None] is an [option]; a value read
      from the configuration is a [pyval].
    - A Python exception is the [Raise] of the [result] monad. *)

From Stdlib Require Import Reals Lra Ascii.
From Stdlib Require Floats.
From stdpp Require Import gmap strings list.

Open Scope R_scope.

(** ** Python values, exceptions *)

Inductive pyerr := AttributeError | TypeError | IndexError | ValueError.

Inductive result (A : Type) :=
  | Ok (a : A)
  | Raise (e : pyerr).
Arguments Ok {A} a.
Arguments Raise {A} e.

#[global] Instance result_ret : MRet result := fun A a => Ok a.
#[global] Instance result_bind : MBind result :=
  fun A B k m => match m with Ok a => k a | Raise e => Raise e end.

(** [for x in xs: acc = body(acc, x)], stopping at the first exception. *)
Fixpoint foldM {A B : Type} (body : B -> A -> result B) (xs : list A) (acc : B)
  : result B :=
  match xs with
  | [] => Ok acc
  | x :: xs' => acc' ← body acc x; foldM body xs' acc'
  end.

(** The values a configuration holds: a number, a sub-mapping of numeric
    parameters, or [None] (what [dict.get] answers for a missing key). *)
Inductive pyval :=
  | PNone
  | PNum (r : R)
  | PDict (d : gmap string R).

(** Python truthiness, as [if self.config:] and [x or default] test it. *)
Definition Rnonzero (r : R) : bool := if Req_dec_T r 0 then false else true.

Definition truthy (v : pyval) : bool :=
  match v with
  | PNone => false
  | PNum r => Rnonzero r
  | PDict d => negb (Nat.eqb (size d) 0)
  end.

(** [config_dict.get(key)] on the top-level mapping. *)
Definition dict_get (d : gmap string pyval) (key : string) : pyval :=
  default PNone (d !! key).

(** [self.config.get(key)]: the attribute must hold a mapping. *)
Definition config_get (config : pyval) (key : string) : result (option R) :=
  match config with
  | PDict d => Ok (d !! key)
  | _ => Raise AttributeError
  end.

(** [self.config.get(key) or dflt] for a numeric parameter: a missing key
    and a configured [0] both give the default. *)
Definition get_or (config : pyval) (key : string) (dflt : R) : result R :=
  v ← config_get config key;
  Ok (match v with
      | Some r => if Rnonzero r then r else dflt
      | None => dflt
      end).

Definition opt_pyval (o : option R) : pyval :=
  match o with Some r => PNum r | None => PNone end.

(** ** Vectors and arrays *)

Definition vec : Type := R * R.

Definition vzero : vec := (0, 0).
Definition vadd (a b : vec) : vec := (a.1 + b.1, a.2 + b.2).
Definition vsub (a b : vec) : vec := (a.1 - b.1, a.2 - b.2).
(** [k * v] and [v * k], kept apart as the source writes them. *)
Definition vscale (k : R) (v : vec) : vec := (k * v.1, k * v.2).
Definition vtimes (v : vec) (k : R) : vec := (v.1 * k, v.2 * k).
Definition dot (a b : vec) : R := a.1 * b.1 + a.2 * b.2.
(** [np.linalg.norm] of one row. *)
Definition norm (v : vec) : R := sqrt (v.1 * v.1 + v.2 * v.2).

(** [np.zeros((n, 2))]. *)
Definition zeros (n : nat) : list vec := replicate n vzero.

(** Element-wise comparisons producing a boolean mask. *)
Definition Rltb (a b : R) : bool := if Rlt_dec a b then true else false.
Definition Rgtb (a b : R) : bool := if Rgt_dec a b then true else false.

(** [arr[mask] = v]: the rows selected by the mask are overwritten. *)
Fixpoint mask_set (arr : list vec) (mask : list bool) (v : vec) : list vec :=
  match arr, mask with
  | x :: arr', m :: mask' => (if m then v else x) :: mask_set arr' mask' v
  | _, _ => arr
  end.

(** [arr[group, :]]: fancy indexing by a list of row numbers, taken as
    natural numbers; a row number past the end raises [IndexError]. *)
Fixpoint take_rows {A : Type} (arr : list A) (group : list nat) : result (list A) :=
  match group with
  | [] => Ok []
  | i :: group' =>
      match arr !! i with
      | Some r => rs ← take_rows arr group'; Ok (r :: rs)
      | None => Raise IndexError
      end
  end.

(** [arr[group, :] = vals], row by row: a repeated row number keeps the last
    value written. *)
Fixpoint set_rows (arr : list vec) (group : list nat) (vals : list vec) : list vec :=
  match group, vals with
  | i :: group', v :: vals' => set_rows (<[i := v]> arr) group' vals'
  | _, _ => arr
  end.

(** [arr[group, :] += vals]: numpy reads [arr[group, :]], adds, and writes the
    sums back; every sum is computed from the rows as they were before the
    statement.  The call sites pass one value row per row number. *)
Definition iadd_rows (arr : list vec) (group : list nat) (vals : list vec)
  : result (list vec) :=
  rows ← take_rows arr group;
  if Nat.eqb (length rows) (length vals)
  then Ok (set_rows arr group (zip_with vadd rows vals))
  else Raise ValueError.

(** numpy broadcasting of two arrays along their first axis: equal lengths
    pair up, a length-one array is repeated, anything else is an error. *)
Definition broadcast {A B C : Type} (op : A -> B -> C) (xs : list A) (ys : list B)
  : result (list C) :=
  if Nat.eqb (length xs) (length ys) then Ok (zip_with op xs ys)
  else match xs, ys with
       | [x], _ => Ok (fmap (op x) ys)
       | _, [y] => Ok (fmap (fun x => op x y) xs)
       | _, _ => Raise ValueError
       end.

(** [member_pos[np.arange(n) != i, :]]: every row but the [i]-th. *)
Definition drop_row {A : Type} (i : nat) (arr : list A) : list A :=
  take i arr ++ drop (S i) arr.

(** ** The state matrix *)

(** One row of the state: columns [0:2] position, [2:4] velocity, [4:6] goal,
    [6:7] relaxation time. *)
Record agent := {
  pos : vec;
  vel : vec;
  goal : vec;
  tau : R;
}.

(** An obstacle space: the force terms only hand it to the obstacle
    potential. *)
Definition Space : Type := list (list vec).

(** ** Geometry helpers of [stateutils] *)

(** Modelled from the spec: [stateutils.normalize] is missing from the
    sources; the spec gives it as "vector normalization (vector array ->
    (unit vectors, norms))" and asks for zero-length rows to be guarded
    rather than turned into NaN.  Each row is divided by its Euclidean norm,
    a zero row stays zero. *)
Definition unit_vector (v : vec) : vec :=
  if Req_dec_T (norm v) 0 then vzero else (v.1 / norm v, v.2 / norm v).

Definition normalize (vecs : list vec) : list vec * list R :=
  (fmap unit_vector vecs, fmap norm vecs).

(** Modelled from the spec: [stateutils.speeds] is missing from the sources;
    the spec gives it as "speed/norm extraction" and the gate of
    GroupCoherenceForceAlt as a function of the norm of the displacement. *)
Definition speeds (vecs : list vec) : list R := fmap norm vecs.

(** Modelled from the spec: [stateutils.vec_diff] is missing from the
    sources; the spec gives it as "pairwise displacement (positions -> array
    of pairwise differences)".  Entry [i][j] is [vecs[i] - vecs[j]]. *)
Definition vec_diff (vecs : list vec) : list (list vec) :=
  fmap (fun a => fmap (fun b => vsub a b) vecs) vecs.

(** Modelled from the spec: [stateutils.desired_directions] is missing from
    the sources; the spec gives it as "the unit vector from each agent's
    current position toward its goal position". *)
Definition desired_directions (state : list agent) : list vec :=
  (normalize (fmap (fun a => vsub (goal a) (pos a)) state)).1.

(** [np.sum(arr, axis=0)] of an array of rows; zero for no row. *)
Definition vsum (vecs : list vec) : vec := foldr vadd vzero vecs.

(** Modelled from the spec: [stateutils.group_center] is missing from the
    sources.  The spec gives it as the centroid of the member positions and
    leaves its weighting open, so the force variants below take it as a
    parameter, a function of the position rows [0:2] of the array it is
    given.  This simple mean is the instance used to evaluate them on
    concrete inputs. *)
Definition group_center_mean (positions : list vec) : vec :=
  ((vsum positions).1 / INR (length positions),
   (vsum positions).2 / INR (length positions)).

(** ** The [Force] base class *)

Record Force := {
  name : string;
  state : option (list agent);
  space : option Space;
  groups : option (list (list nat));
  goal_vector : option (list vec);
  initial_speeds : option (list R);
  factor : pyval;
  time_step : pyval;
  config : pyval;
}.

(** [Force.__init__], for a variant whose snake-case name is [nm]. *)
Definition init (nm : string) : Force := {|
  name := nm;
  state := None;
  space := None;
  groups := None;
  goal_vector := None;
  initial_speeds := None;
  factor := PNum 1;
  time_step := PNum 0.4;
  config := PDict ∅;
|}.

(** [Force.load_config].  [self.config] is overwritten first; the two other
    attributes change only when the looked-up value is truthy, and then
    [self.config.get] needs it to be a mapping. *)
Definition load_config (f : Force) (config_dict : gmap string pyval) : result Force :=
  let cfg := dict_get config_dict (name f) in
  if truthy cfg then
    fac ← config_get cfg "factor";
    Ok {| name := name f; state := state f; space := space f; groups := groups f;
          goal_vector := goal_vector f; initial_speeds := initial_speeds f;
          factor := opt_pyval fac;
          time_step := dict_get config_dict "time_step";
          config := cfg |}
  else
    Ok {| name := name f; state := state f; space := space f; groups := groups f;
          goal_vector := goal_vector f; initial_speeds := initial_speeds f;
          factor := factor f;
          time_step := time_step f;
          config := cfg |}.

(** [Force.set_state]. *)
Definition set_state (f : Force) (state' : list agent)
    (groups' : option (list (list nat))) (space' : option Space)
    (initial_speeds' : option (list R)) : Force := {|
  name := name f;
  state := Some state';
  space := space';
  groups := groups';
  goal_vector := Some (desired_directions state');
  initial_speeds :=
    match initial_speeds' with
    | Some s => Some s
    | None => initial_speeds f
    end;
  factor := factor f;
  time_step := time_step f;
  config := config f;
|}.

(** [forces * self.factor]: the factor must be a number. *)
Definition times_factor (forces : list vec) (fac : pyval) : result (list vec) :=
  match fac with
  | PNum k => Ok (fmap (fun v => vtimes v k) forces)
  | _ => Raise TypeError
  end.

(** [self.state.shape[0]] and the rows of [self.state]. *)
Definition state_rows (f : Force) : result (list agent) :=
  match state f with
  | Some st => Ok st
  | None => Raise AttributeError
  end.

(** [self.state[:, 2:4]], [self.goal_vector[group, :]] and the like: subscripting
    [None] is a [TypeError], and so is arithmetic on it. *)
Definition subscript {A : Type} (o : option A) : result A :=
  match o with
  | Some a => Ok a
  | None => Raise TypeError
  end.

(** ** GoalAttractiveForce *)

Module GoalAttractiveForce.

Definition get_force (f : Force) : result (list vec) :=
  st ← subscript (state f);
  let vel := fmap vel st in
  let tau := fmap tau st in
  v0 ← subscript (initial_speeds f);
  e ← subscript (goal_vector f);
  desired ← broadcast (fun s d => vscale s d) v0 e;
  delta ← broadcast vsub desired vel;
  F0 ← broadcast (fun t d => vscale (1 / t) d) tau delta;
  times_factor F0 (factor f).

End GoalAttractiveForce.

(** ** SpaceRepulsiveForce *)

Module SpaceRepulsiveForce.
Section SpaceRepulsiveForce.

(** [PedSpacePotential(space, u0, r).grad_r_aB(state)] of [potentials.py],
    which is not part of the sources: an [N x M x 2] array, or an
    exception. *)
Variable grad_r_aB :
  Space -> pyval -> pyval -> option (list agent) -> result (list (list vec)).

(** [-1.0 * grad] on an [N x M x 2] array. *)
Definition negated (grad : list (list vec)) : list (list vec) :=
  fmap (fun row : list vec => fmap (vscale (-1)) row) grad.

(** The array [F_aB] of the two branches: [N x 0 x 2] zeros without a
    space, the negated gradient otherwise. *)
Definition obstacle_forces (f : Force) : result (list (list vec)) :=
  match space f with
  | None =>
      st ← state_rows f;
      Ok (replicate (length st) [])
  | Some sp =>
      u0 ← config_get (config f) "u0";
      r ← config_get (config f) "r";
      grad ← grad_r_aB sp (opt_pyval u0) (opt_pyval r) (state f);
      Ok (negated grad)
  end.

Definition get_force (f : Force) : result (list vec) :=
  F_aB ← obstacle_forces f;
  times_factor (fmap vsum F_aB) (factor f).

End SpaceRepulsiveForce.
End SpaceRepulsiveForce.

(** [if self.groups is not None: for group in self.groups: body], the loop
    of the four group variants; [body] updates [forces]. *)
Definition for_each_group (groups : option (list (list nat)))
    (body : list vec -> list nat -> result (list vec))
    (forces : list vec) : result (list vec) :=
  match groups with
  | None => Ok forces
  | Some gs => foldM body gs forces
  end.

(** ** GroupCoherenceForce *)

Module GroupCoherenceForce.
Section GroupCoherenceForce.

(** [stateutils.group_center], see [group_center_mean]. *)
Variable group_center : list vec -> vec.

(** The body of the loop up to the array that is added to [forces]. *)
Definition group_vectors (st : list agent) (group : list nat) : result (list vec) :=
  let threshold := (INR (length group) - 1) / 2 in
  member_states ← take_rows st group;
  let member_pos := fmap pos member_states in
  let com := group_center member_pos in
  let force_vec := fmap (fun p => vsub com p) member_pos in
  let '(vectors, norms) := normalize force_vec in
  let vectors := mask_set vectors (fmap (fun n => Rltb n threshold) norms) vzero in
  Ok vectors.

Definition get_force (f : Force) : result (list vec) :=
  st ← state_rows f;
  let forces := zeros (length st) in
  forces ← for_each_group (groups f)
             (fun forces group =>
                vectors ← group_vectors st group;
                iadd_rows forces group vectors)
             forces;
  times_factor forces (factor f).

End GroupCoherenceForce.
End GroupCoherenceForce.

(** ** GroupCoherenceForceAlt *)

Module GroupCoherenceForceAlt.
Section GroupCoherenceForceAlt.

(** [stateutils.group_center], see [group_center_mean]. *)
Variable group_center : list vec -> vec.

Definition softened_factor (threshold n : R) : R := (tanh (n - threshold) + 1) / 2.

Definition group_vectors (st : list agent) (group : list nat) : result (list vec) :=
  let threshold := (INR (length group) - 1) / 2 in
  member_states ← take_rows st group;
  let member_pos := fmap pos member_states in
  let com := group_center member_pos in
  let force_vec := fmap (fun p => vsub com p) member_pos in
  let norms := speeds force_vec in
  let softened := fmap (softened_factor threshold) norms in
  Ok (zip_with vtimes force_vec softened).

Definition get_force (f : Force) : result (list vec) :=
  st ← state_rows f;
  let forces := zeros (length st) in
  forces ← for_each_group (groups f)
             (fun forces group =>
                vectors ← group_vectors st group;
                iadd_rows forces group vectors)
             forces;
  times_factor forces (factor f).

End GroupCoherenceForceAlt.
End GroupCoherenceForceAlt.

(** ** GroupRepulsiveForce *)

Module GroupRepulsiveForce.

(** [np.nan_to_num]: the identity on arrays of real numbers. *)
Definition nan_to_num (vecs : list vec) : list vec := vecs.

(** The body of the inner loop, for one array [m] of [vec_diff]. *)
Definition add_displacements (threshold : R) (group : list nat)
    (forces : list vec) (m : list vec) : result (list vec) :=
  let '(vectors, norms) := normalize m in
  let vectors := nan_to_num vectors in
  let vectors := mask_set vectors (fmap (fun n => Rgtb n threshold) norms) vzero in
  iadd_rows forces group m.

Definition get_force (f : Force) : result (list vec) :=
  threshold ← get_or (config f) "threshold" 0.5;
  st ← state_rows f;
  let forces := zeros (length st) in
  forces ← for_each_group (groups f)
             (fun forces group =>
                member_states ← take_rows st group;
                let member_pos := fmap pos member_states in
                foldM (add_displacements threshold group) (vec_diff member_pos) forces)
             forces;
  times_factor forces (factor f).

(** The same force with the normalisation and the threshold test left out:
    the raw pairwise displacements of each group, accumulated. *)
Definition raw_displacements (f : Force) : result (list vec) :=
  st ← state_rows f;
  let forces := zeros (length st) in
  forces ← for_each_group (groups f)
             (fun forces group =>
                member_states ← take_rows st group;
                let member_pos := fmap pos member_states in
                foldM (fun forces m => iadd_rows forces group m)
                      (vec_diff member_pos) forces)
             forces;
  times_factor forces (factor f).

End GroupRepulsiveForce.

(** ** GroupGazeForce *)

Module GroupGazeForce.
Section GroupGazeForce.

(** [stateutils.group_center], see [group_center_mean]. *)
Variable group_center : list vec -> vec.

(** [np.arccos]: NaN ([None]) outside [[-1, 1]]. *)
Definition arccos (x : R) : option R :=
  if Rle_dec (-1) x then (if Rle_dec x 1 then Some (acos x) else None) else None.

Definition degrees (x : R) : R := x * (180 / PI).
Definition radians (x : R) : R := x * (PI / 180).

(** [a - vision_angle if a > vision_angle else 0.0]: a comparison with NaN
    is false. *)
Definition excess (vision_angle : R) (a : option R) : R :=
  match a with
  | Some a => if Rgt_dec a vision_angle then a - vision_angle else 0
  | None => 0
  end.

(** The angle, in degrees, that the source computes for one member. *)
Definition com_angle (d c : vec) : option R := degrees <$> arccos (dot d c).

(** The body of the loop for a group of more than one member, up to the
    array [force] that is added to [forces]. *)
Definition group_force (vision_angle : R) (f : Force) (st : list agent)
    (group : list nat) : result (list vec) :=
  member_states ← take_rows st group;
  let member_pos := fmap pos member_states in
  e ← subscript (goal_vector f);
  member_directions ← take_rows e group;
  let relative_com :=
    imap (fun i p => vsub (group_center (drop_row i member_pos)) p) member_pos in
  let com_directions := (normalize relative_com).1 in
  let com_angles := zip_with com_angle member_directions com_directions in
  let rotation := fmap (fun a => radians (excess vision_angle a)) com_angles in
  let force := zip_with (fun r d => vscale (- r) d) rotation member_directions in
  Ok force.

Definition get_force (f : Force) : result (list vec) :=
  st ← state_rows f;
  let forces := zeros (length st) in
  vision_angle ← get_or (config f) "fov_phi" 100;
  forces ← for_each_group (groups f)
             (fun forces group =>
                if Nat.leb (length group) 1 then Ok forces
                else
                  force ← group_force vision_angle f st group;
                  iadd_rows forces group force)
             forces;
  times_factor forces (factor f).

End GroupGazeForce.
End GroupGazeForce.

(** ** [camel_to_snake] and [Force.__init__] *)

(** Strings are ASCII, as the class names of the module are. *)
Definition is_upper (c : ascii) : bool :=
  (N.leb 65 (N_of_ascii c) && N.leb (N_of_ascii c) 90)%bool.

Definition to_lower (c : ascii) : ascii :=
  if is_upper c then ascii_of_N (N_of_ascii c + 32) else c.

(** [str.lower()]. *)
Fixpoint lower (s : string) : string :=
  match s with
  | EmptyString => EmptyString
  | String c s' => String (to_lower c) (lower s')
  end.

(** The substitution at the positions after the first: the lookahead
    [(?=[A-Z])] holds before every upper-case letter. *)
Fixpoint underscore_before_upper (s : string) : string :=
  match s with
  | EmptyString => EmptyString
  | String c s' =>
      if is_upper c then String "_"%char (String c (underscore_before_upper s'))
      else String c (underscore_before_upper s')
  end.

(** [re.sub(r"(?<!^)(?=[A-Z])", "_", s)]: the lookbehind [(?<!^)] rules out
    the start of the string. *)
Definition re_sub (s : string) : string :=
  match s with
  | EmptyString => EmptyString
  | String c s' => String c (underscore_before_upper s')
  end.

Definition camel_to_snake (camel_case_string : string) : string :=
  lower (re_sub camel_case_string).

(** [Force.__init__] of a variant whose class is called [class_name]:
    [self.name = camel_to_snake(type(self).__name__)]. *)
Definition new (class_name : string) : Force := init (camel_to_snake class_name).

(** The classes of the module that derive from [Force]. *)
Definition variants : list string :=
  [ "GoalAttractiveForce"; "PedRepulsiveForce"; "SpaceRepulsiveForce";
    "GroupCoherenceForce"; "GroupCoherenceForceAlt"; "GroupRepulsiveForce";
    "GroupGazeForce" ]%string.

(** ** PedRepulsiveForce *)

Module PedRepulsiveForce.
Section PedRepulsiveForce.

(** [PedPedPotential(time_step, v0, sigma).grad_r_ab(state)] of
    [potentials.py], which is not part of the sources: an [N x N x 2] array,
    or an exception. *)
Variable grad_r_ab :
  pyval -> pyval -> pyval -> option (list agent) -> result (list (list vec)).

(** [FieldOfView(phi, out_of_view_factor)(e, f)] of [fieldofview.py], which
    is not part of the sources: an [N x N] array of weights, or an
    exception. *)
Variable fov :
  pyval -> pyval -> option (list vec) -> list (list vec) -> result (list (list R)).

(** All the results of a list, or the first exception. *)
Fixpoint sequence {A : Type} (xs : list (result A)) : result (list A) :=
  match xs with
  | [] => Ok []
  | x :: xs' => a ← x; rest ← sequence xs'; Ok (a :: rest)
  end.

(** [np.expand_dims(w, -1) * f_ab]: broadcasting along the first two axes. *)
Definition weighted (w : list (list R)) (f_ab : list (list vec))
  : result (list (list vec)) :=
  rows ← broadcast (fun (wrow : list R) (frow : list vec) =>
                      broadcast (fun (x : R) (v : vec) => vscale x v) wrow frow)
                   w f_ab;
  sequence rows.

Definition get_force (f : Force) : result (list vec) :=
  v0 ← config_get (config f) "v0";
  sigma ← config_get (config f) "sigma";
  grad ← grad_r_ab (time_step f) (opt_pyval v0) (opt_pyval sigma) (state f);
  let f_ab := SpaceRepulsiveForce.negated grad in
  phi ← config_get (config f) "fov_phi";
  out_of_view_factor ← config_get (config f) "fov_factor";
  w ← fov (opt_pyval phi) (opt_pyval out_of_view_factor) (goal_vector f)
          (SpaceRepulsiveForce.negated f_ab);
  F_ab ← weighted w f_ab;
  times_factor (fmap vsum F_ab) (factor f).

End PedRepulsiveForce.
End PedRepulsiveForce.

(** ** Predicates used in the statements *)

(** A loop body that keeps the number of rows and leaves alone every row
    outside the group it is run on. *)
Definition frames (body : list vec -> list nat -> result (list vec)) : Prop :=
  forall forces group forces',
    body forces group = Ok forces' ->
    length forces' = length forces /\
    forall i, i ∉ group -> forces' !! i = forces !! i.

(** The attributes [set_state] owns are not touched by [load_config]. *)
Definition same_working_state (f f' : Force) : Prop :=
  name f' = name f /\ state f' = state f /\ space f' = space f /\
  groups f' = groups f /\ goal_vector f' = goal_vector f /\
  initial_speeds f' = initial_speeds f.

(** ** Concrete inputs *)

(** The end-to-end scenario of the specification: two agents with
    relaxation time [0.5], at rest, both heading along the x axis. *)
Definition two_agents : list agent :=
  [ {| pos := (0, 0); vel := (0, 0); goal := (10, 0); tau := 0.5 |};
    {| pos := (0, 1); vel := (0, 0); goal := (10, 1); tau := 0.5 |} ].

Definition goal_force_example : Force :=
  set_state (init "goal_attractive_force") two_agents None None (Some [1; 1]).

(** A configuration whose sub-mapping carries a [time_step] of its own. *)
Definition config_both_time_steps : gmap string pyval :=
  {[ "goal_attractive_force" := PDict {[ "factor" := 2; "time_step" := 0.1 ]};
     "time_step" := PNum 0.25 ]}.

(** A configuration whose sub-mapping for the force is present but empty. *)
Definition config_empty_submap : gmap string pyval :=
  {[ "goal_attractive_force" := PDict ∅; "time_step" := PNum 0.25 ]}.

(** Three agents on the x axis; the first two form a group, the third
    belongs to none. *)
Definition three_agents : list agent :=
  [ {| pos := (1, 0); vel := (0, 0); goal := (5, 0); tau := 0.5 |};
    {| pos := (-1, 0); vel := (0, 0); goal := (5, 0); tau := 0.5 |};
    {| pos := (0, 0); vel := (0, 0); goal := (5, 0); tau := 0.5 |} ].

Definition pair_and_loner (nm : string) : Force :=
  set_state (init nm) three_agents (Some [[0; 1]%nat]) None None.

(** The same three agents as one group: the centroid is the origin and the
    first agent stands at distance 1 from it, the threshold of a group of
    three. *)
Definition trio (nm : string) : Force :=
  set_state (init nm) three_agents (Some [[0; 1; 2]%nat]) None None.

(** Two agents in one group, one loner, and a configured threshold. *)
Definition repulsive_with_threshold (t : R) : Force := {|
  name := "group_repulsive_force";
  state := Some three_agents;
  space := None;
  groups := Some [[0; 1]%nat];
  goal_vector := Some (desired_directions three_agents);
  initial_speeds := None;
  factor := PNum 1;
  time_step := PNum 0.4;
  config := PDict {[ "threshold" := t ]};
|}.

(** ** The dot product and rounding *)

(** The angle with the dot product clamped into [[-1, 1]] first, as the
    specification asks for it. *)
Definition clamp (x : R) : R := Rmax (-1) (Rmin 1 x).

Definition com_angle_clamped (d c : vec) : R :=
  GroupGazeForce.degrees (acos (clamp (dot d c))).


(** The normalisation and the dot product in binary64 arithmetic, to
    evaluate what the direction cache holds for a concrete goal.
    Modelled from the spec: the same normalisation as [unit_vector], each
    operation rounded to the nearest [float64]. *)
Module Float64.
Import Floats.
Local Open Scope float_scope.

Definition normalize_row (v : float * float) : float * float :=
  let n := PrimFloat.sqrt (fst v * fst v + snd v * snd v) in
  (fst v / n, snd v / n).

Definition dot (d c : float * float) : float := fst d * fst c + snd d * snd c.

(** The goal of the first agent of [back_to_back] seen from its position,
    and the other member seen from there. *)
Definition ahead : float * float := (115, 252).
Definition behind : float * float := (-115, -252).
Definition minus_one : float := -1.

(** The real number a finite float stands for. *)
Definition value (x : float) : R :=
  match Prim2SF x with
  | S754_finite s m e => ((if s then -1 else 1) * IZR (Zpos m) * powerRZ 2 e)%R
  | _ => 0%R
  end.

End Float64.

(** The direction of [(115, 252)], of length 277, with its two components
    as binary64 division rounds them: [7478901908268694 * 2^-54] and
    [8194275134277004 * 2^-53]. *)
Definition rounded_direction : vec :=
  (7478901908268694 / 18014398509481984, 8194275134277004 / 9007199254740992).

(** Two agents in one group; the first walks straight away from the second.
    The direction cache holds the rounded directions. *)
Definition back_to_back : list agent :=
  [ {| pos := (0, 0); vel := (0, 0); goal := (115, 252); tau := 0.5 |};
    {| pos := (-115, -252); vel := (0, 0); goal := (115, 252); tau := 0.5 |} ].

Definition gaze_rounded : Force := {|
  name := "group_gaze_force";
  state := Some back_to_back;
  space := None;
  groups := Some [[0; 1]%nat];
  goal_vector := Some [rounded_direction; rounded_direction];
  initial_speeds := None;
  factor := PNum 1;
  time_step := PNum 0.4;
  config := PDict ∅;
|}.

(** ** Predicates on names *)

Fixpoint has_upper (s : string) : bool :=
  match s with
  | EmptyString => false
  | String c s' => (is_upper c || has_upper s')%bool
  end.

Fixpoint count_upper (s : string) : nat :=
  match s with
  | EmptyString => 0%nat
  | String c s' => ((if is_upper c then 1 else 0) + count_upper s')%nat
  end.

(** The string without its underscores. *)
Fixpoint letters (s : string) : string :=
  match s with
  | EmptyString => EmptyString
  | String c s' => if Ascii.eqb c "_" then letters s' else String c (letters s')
  end.

(** ** Further inputs *)

(** The same force with another value in [self.config]. *)
Definition with_config (f : Force) (c : pyval) : Force := {|
  name := name f;
  state := state f;
  space := space f;
  groups := groups f;
  goal_vector := goal_vector f;
  initial_speeds := initial_speeds f;
  factor := factor f;
  time_step := time_step f;
  config := c;
|}.

(** The pair and the loner of [three_agents] under GroupGazeForce with a
    configured vision angle. *)
Definition gaze_with_vision (phi : R) : Force :=
  with_config (pair_and_loner "group_gaze_force") (PDict {[ "fov_phi" := phi ]}).

(** Stand-ins for the collaborators whose modules are not part of the
    sources, to run the two potential-based variants on: a pairwise gradient
    that is the separation of the two agents, an obstacle gradient that is
    the agent's position once per obstacle, and a field of view that weighs
    every pair with one. *)
Definition separation_gradient (_ _ _ : pyval) (st : option (list agent))
  : result (list (list vec)) :=
  match st with
  | Some rows =>
      Ok ((fun a : agent => (fun b : agent => vsub (pos a) (pos b)) <$> rows) <$> rows)
  | None => Raise AttributeError
  end.

Definition position_gradient (sp : Space) (_ _ : pyval) (st : option (list agent))
  : result (list (list vec)) :=
  match st with
  | Some rows => Ok ((fun a : agent => (fun _ : list vec => pos a) <$> sp) <$> rows)
  | None => Raise AttributeError
  end.

Definition all_in_view (_ _ : pyval) (_ : option (list vec)) (f : list (list vec))
  : result (list (list R)) :=
  Ok ((fun row : list vec => (fun _ : vec => 1) <$> row) <$> f).

(** [two_agents] between two obstacles. *)
Definition two_agents_two_walls (nm : string) : Force :=
  set_state (init nm) two_agents None (Some [[(0, 5)]; [(0, -5)]]) None.

(** * Proofs *)

(** ** The [result] monad *)

Lemma bind_Ok {A B : Type} (m : result A) (k : A -> result B) (b : B) :
  m ≫= k = Ok b <-> exists a, m = Ok a /\ k a = Ok b.
Proof.
  destruct m as [a|e]; simpl; split.
  - intros H. exists a. split; [reflexivity | exact H].
  - intros (a' & Ha & Hk). injection Ha as ->. exact Hk.
  - discriminate.
  - intros (a' & Ha & _). discriminate.
Qed.

(** Splits a hypothesis [m ≫= k = Ok b] into its two steps. *)
Ltac inv_bind H :=
  let a := fresh "r" in
  let Ha := fresh "H" a in
  apply bind_Ok in H as (a & Ha & H).

Lemma foldM_app {A B : Type} (body : B -> A -> result B) (xs ys : list A) (acc : B) :
  foldM body (xs ++ ys) acc = foldM body xs acc ≫= foldM body ys.
Proof.
  revert acc. induction xs as [|x xs IH]; intros acc; simpl; [reflexivity|].
  destruct (body acc x) as [acc'|e]; simpl; [apply IH | reflexivity].
Qed.

(** ** Vectors *)

Lemma vadd_zero_l (v : vec) : vadd vzero v = v.
Proof. destruct v as [x y]. unfold vadd, vzero; simpl. f_equal; lra. Qed.

Lemma vtimes_zero (k : R) : vtimes vzero k = vzero.
Proof. unfold vtimes, vzero; simpl. f_equal; lra. Qed.

Lemma vtimes_vscale (v : vec) (k : R) : vtimes v k = vscale k v.
Proof. unfold vtimes, vscale. f_equal; apply Rmult_comm. Qed.

Lemma norm_nonneg (v : vec) : 0 <= norm v.
Proof. apply sqrt_pos. Qed.

Lemma norm_sq (v : vec) : norm v * norm v = v.1 * v.1 + v.2 * v.2.
Proof. unfold norm. apply sqrt_sqrt. nra. Qed.

(** A way to compute a norm: exhibit its square. *)
Lemma norm_eq (v : vec) (n : R) : 0 <= n -> v.1 * v.1 + v.2 * v.2 = n * n -> norm v = n.
Proof. intros Hn Hsq. unfold norm. rewrite Hsq. apply sqrt_square, Hn. Qed.

Lemma norm_zero_iff (v : vec) : norm v = 0 <-> v = vzero.
Proof.
  split.
  - intros H. pose proof (norm_sq v) as Hsq. rewrite H in Hsq.
    destruct v as [x y]; simpl in *. unfold vzero. f_equal; nra.
  - intros ->. apply norm_eq; [lra | simpl; lra].
Qed.

(** A row that is not zero is normalised to length one. *)
Lemma unit_vector_norm (v : vec) : v <> vzero -> norm (unit_vector v) = 1.
Proof.
  intros Hv. unfold unit_vector.
  destruct (Req_dec_T (norm v) 0) as [H0|Hn].
  - apply norm_zero_iff in H0. contradiction.
  - apply norm_eq; [lra|]. simpl.
    pose proof (norm_sq v) as Hsq. field_simplify_eq; [|exact Hn]. lra.
Qed.

Lemma unit_vector_zero : unit_vector vzero = vzero.
Proof.
  unfold unit_vector. destruct (Req_dec_T (norm vzero) 0) as [_|Hn]; [reflexivity|].
  exfalso. apply Hn. apply norm_zero_iff. reflexivity.
Qed.

(** ** Fancy indexing *)

Lemma take_rows_length {A : Type} (arr : list A) (group : list nat) (rows : list A) :
  take_rows arr group = Ok rows -> length rows = length group.
Proof.
  revert rows. induction group as [|i group IH]; intros rows H; simpl in H.
  - injection H as <-. reflexivity.
  - destruct (arr !! i) as [r|]; [|discriminate].
    inv_bind H. injection H as <-. simpl. f_equal. apply IH, Hr0.
Qed.

Lemma take_rows_lookup {A : Type} (arr : list A) (group : list nat) (rows : list A)
    (k i : nat) :
  take_rows arr group = Ok rows -> group !! k = Some i ->
  exists r, arr !! i = Some r /\ rows !! k = Some r.
Proof.
  revert rows k. induction group as [|j group IH]; intros rows k H Hk; simpl in H.
  - rewrite lookup_nil in Hk. discriminate.
  - destruct (arr !! j) as [r|] eqn:Hj; [|discriminate].
    inv_bind H. injection H as <-.
    destruct k as [|k]; simpl in Hk.
    + injection Hk as ->. exists r. split; [exact Hj | reflexivity].
    + apply (IH _ _ Hr0 Hk).
Qed.

Lemma take_rows_Ok {A : Type} (arr : list A) (group : list nat) :
  (forall i, i ∈ group -> (i < length arr)%nat) ->
  exists rows, take_rows arr group = Ok rows.
Proof.
  induction group as [|i group IH]; intros Hin; simpl.
  - exists []. reflexivity.
  - destruct (lookup_lt_is_Some_2 arr i) as [r Hr].
    { apply Hin. left. }
    rewrite Hr. destruct IH as [rows Hrows].
    { intros j Hj. apply Hin. right. exact Hj. }
    rewrite Hrows. exists (r :: rows). reflexivity.
Qed.

Lemma set_rows_length (arr : list vec) (group : list nat) (vals : list vec) :
  length (set_rows arr group vals) = length arr.
Proof.
  revert arr vals. induction group as [|i group IH]; intros arr vals; simpl; [reflexivity|].
  destruct vals as [|v vals]; [reflexivity|]. rewrite IH. apply length_insert.
Qed.

Lemma set_rows_frame (arr : list vec) (group : list nat) (vals : list vec) (i : nat) :
  i ∉ group -> set_rows arr group vals !! i = arr !! i.
Proof.
  revert arr vals. induction group as [|j group IH]; intros arr vals Hi; simpl; [reflexivity|].
  destruct vals as [|v vals]; [reflexivity|].
  apply not_elem_of_cons in Hi as [Hne Hi].
  rewrite IH by exact Hi. apply list_lookup_insert_ne. congruence.
Qed.

Lemma set_rows_member (arr : list vec) (group : list nat) (vals : list vec)
    (k i : nat) (v : vec) :
  NoDup group -> group !! k = Some i -> vals !! k = Some v -> (i < length arr)%nat ->
  set_rows arr group vals !! i = Some v.
Proof.
  revert arr vals k. induction group as [|j group IH]; intros arr vals k Hnd Hk Hv Hlt.
  - rewrite lookup_nil in Hk. discriminate.
  - apply NoDup_cons in Hnd as [Hj Hnd].
    destruct vals as [|w vals]; [rewrite lookup_nil in Hv; discriminate|].
    destruct k as [|k]; simpl in *.
    + injection Hk as ->. injection Hv as ->.
      rewrite set_rows_frame by exact Hj.
      apply list_lookup_insert_eq. exact Hlt.
    + apply (IH _ _ k); [exact Hnd | exact Hk | exact Hv |].
      rewrite length_insert. exact Hlt.
Qed.

Lemma iadd_rows_inv (arr : list vec) (group : list nat) (vals arr' : list vec) :
  iadd_rows arr group vals = Ok arr' ->
  exists rows, take_rows arr group = Ok rows /\ length vals = length group /\
               arr' = set_rows arr group (zip_with vadd rows vals).
Proof.
  unfold iadd_rows. intros H. inv_bind H.
  destruct (Nat.eqb (length r) (length vals)) eqn:Hlen; [|discriminate].
  injection H as <-. apply Nat.eqb_eq in Hlen.
  exists r. split; [exact Hr|]. split; [|reflexivity].
  rewrite <- Hlen. apply (take_rows_length _ _ _ Hr).
Qed.

Lemma iadd_rows_length (arr : list vec) (group : list nat) (vals arr' : list vec) :
  iadd_rows arr group vals = Ok arr' -> length arr' = length arr.
Proof.
  intros H. apply iadd_rows_inv in H as (rows & _ & _ & ->). apply set_rows_length.
Qed.

Lemma iadd_rows_frame (arr : list vec) (group : list nat) (vals arr' : list vec) (i : nat) :
  iadd_rows arr group vals = Ok arr' -> i ∉ group -> arr' !! i = arr !! i.
Proof.
  intros H Hi. apply iadd_rows_inv in H as (rows & _ & _ & ->).
  apply set_rows_frame, Hi.
Qed.

(** In a group without repetition, member [k] receives [vals[k]]. *)
Lemma iadd_rows_member (arr : list vec) (group : list nat) (vals arr' : list vec)
    (k i : nat) (a v : vec) :
  iadd_rows arr group vals = Ok arr' -> NoDup group ->
  group !! k = Some i -> vals !! k = Some v -> arr !! i = Some a ->
  arr' !! i = Some (vadd a v).
Proof.
  intros H Hnd Hk Hv Ha. apply iadd_rows_inv in H as (rows & Hrows & Hlen & ->).
  destruct (take_rows_lookup _ _ _ _ _ Hrows Hk) as (r & Hr & Hrk).
  rewrite Ha in Hr. injection Hr as <-.
  apply (set_rows_member _ _ _ k); [exact Hnd | exact Hk | | ].
  - rewrite lookup_zip_with, Hrk, Hv. reflexivity.
  - apply lookup_lt_Some in Ha. exact Ha.
Qed.

Lemma iadd_rows_Ok (arr : list vec) (group : list nat) (vals : list vec) :
  (forall i, i ∈ group -> (i < length arr)%nat) -> length vals = length group ->
  exists arr', iadd_rows arr group vals = Ok arr'.
Proof.
  intros Hin Hlen. destruct (take_rows_Ok arr group Hin) as [rows Hrows].
  unfold iadd_rows. rewrite Hrows. simpl.
  rewrite (take_rows_length _ _ _ Hrows), <- Hlen, Nat.eqb_refl. eauto.
Qed.

(** ** The group loop *)

Lemma foldM_frames (body : list vec -> list nat -> result (list vec))
    (gs : list (list nat)) (forces F : list vec) :
  frames body -> foldM body gs forces = Ok F ->
  length F = length forces /\
  forall i, (forall g, g ∈ gs -> i ∉ g) -> F !! i = forces !! i.
Proof.
  intros Hb. revert forces. induction gs as [|g gs IH]; intros forces H; simpl in H.
  - injection H as <-. split; reflexivity.
  - inv_bind H. destruct (Hb _ _ _ Hr) as [Hlen Hfr].
    destruct (IH _ H) as [Hlen' Hfr']. split; [congruence|].
    intros i Hi. rewrite Hfr'.
    + apply Hfr, Hi. left.
    + intros g' Hg'. apply Hi. right. exact Hg'.
Qed.

(** A member of one group only: its final row is the one the body leaves
    when it runs on that group, and its row before that is the initial one. *)
Lemma foldM_isolate (body : list vec -> list nat -> result (list vec))
    (gs1 gs2 : list (list nat)) (group : list nat) (forces F : list vec) (i : nat) :
  frames body ->
  foldM body (gs1 ++ group :: gs2) forces = Ok F ->
  (forall g, g ∈ gs1 ++ gs2 -> i ∉ g) ->
  exists mid mid',
    body mid group = Ok mid' /\ length mid = length forces /\
    mid !! i = forces !! i /\ F !! i = mid' !! i.
Proof.
  intros Hb H Hi. rewrite foldM_app in H. inv_bind H. simpl in H. inv_bind H.
  exists r, r0. split; [exact Hr0|].
  destruct (foldM_frames _ _ _ _ Hb Hr) as [Hlen Hfr].
  destruct (foldM_frames _ _ _ _ Hb H) as [_ Hfr'].
  split; [exact Hlen|]. split.
  - apply Hfr. intros g Hg. apply Hi. apply elem_of_app. left. exact Hg.
  - apply Hfr'. intros g Hg. apply Hi. apply elem_of_app. right. exact Hg.
Qed.

Lemma for_each_group_frames (body : list vec -> list nat -> result (list vec))
    (groups : option (list (list nat))) (forces F : list vec) :
  frames body -> for_each_group groups body forces = Ok F ->
  length F = length forces /\
  forall i, (forall gs g, groups = Some gs -> g ∈ gs -> i ∉ g) -> F !! i = forces !! i.
Proof.
  intros Hb H. destruct groups as [gs|]; simpl in H.
  - destruct (foldM_frames _ _ _ _ Hb H) as [Hlen Hfr]. split; [exact Hlen|].
    intros i Hi. apply Hfr. intros g Hg. apply (Hi gs g eq_refl Hg).
  - injection H as <-. split; reflexivity.
Qed.

(** The usual shape of a body: compute an array, add it to the group's rows. *)
Lemma frames_iadd (contribution : list nat -> result (list vec)) :
  frames (fun forces group => vals ← contribution group; iadd_rows forces group vals).
Proof.
  intros forces group forces' H. inv_bind H. split.
  - apply (iadd_rows_length _ _ _ _ H).
  - intros i Hi. apply (iadd_rows_frame _ _ _ _ _ H Hi).
Qed.

(** ** Scaling by the factor *)

Lemma times_factor_inv (forces F : list vec) (fac : pyval) :
  times_factor forces fac = Ok F ->
  exists k, fac = PNum k /\ F = (fun v => vtimes v k) <$> forces.
Proof.
  destruct fac as [|k|d]; simpl; intros H; try discriminate.
  injection H as <-. exists k. split; reflexivity.
Qed.

Lemma zeros_lookup (n i : nat) : (i < n)%nat -> zeros n !! i = Some vzero.
Proof. intros Hi. unfold zeros. apply lookup_replicate_2, Hi. Qed.

(** ** The bodies of the four group loops *)

Lemma add_displacements_eq (threshold : R) (group : list nat) (forces m : list vec) :
  GroupRepulsiveForce.add_displacements threshold group forces m = iadd_rows forces group m.
Proof. reflexivity. Qed.

Lemma foldM_iadd_frames (group : list nat) (ms : list (list vec)) (forces forces' : list vec) :
  foldM (fun forces m => iadd_rows forces group m) ms forces = Ok forces' ->
  length forces' = length forces /\
  forall i, i ∉ group -> forces' !! i = forces !! i.
Proof.
  revert forces. induction ms as [|m ms IH]; intros forces H; simpl in H.
  - injection H as <-. split; reflexivity.
  - inv_bind H. destruct (IH _ H) as [Hlen Hfr].
    rewrite Hlen, (iadd_rows_length _ _ _ _ Hr). split; [reflexivity|].
    intros i Hi. rewrite Hfr by exact Hi. apply (iadd_rows_frame _ _ _ _ _ Hr Hi).
Qed.

Lemma frames_repulsive (threshold : R) (st : list agent) :
  frames (fun forces group =>
            member_states ← take_rows st group;
            let member_pos := pos <$> member_states in
            foldM (GroupRepulsiveForce.add_displacements threshold group)
                  (vec_diff member_pos) forces).
Proof.
  intros forces group forces' H. inv_bind H.
  apply (foldM_iadd_frames _ _ _ _ H).
Qed.

Lemma frames_gaze (group_center : list vec -> vec) (vision_angle : R) (f : Force)
    (st : list agent) :
  frames (fun forces group =>
            if Nat.leb (length group) 1 then Ok forces
            else
              force ← GroupGazeForce.group_force group_center vision_angle f st group;
              iadd_rows forces group force).
Proof.
  intros forces group forces' H.
  destruct (Nat.leb (length group) 1).
  - injection H as <-. split; reflexivity.
  - apply (frames_iadd _ _ _ _ H).
Qed.

(** What every group variant returns, given the array the loop leaves. *)
Lemma scaled_zero_row (forces F : list vec) (fac : pyval) (n i : nat) :
  times_factor forces fac = Ok F -> length forces = n ->
  forces !! i = zeros n !! i -> (i < n)%nat ->
  length F = n /\ F !! i = Some vzero.
Proof.
  intros H Hlen Hrow Hi. apply times_factor_inv in H as (k & _ & ->).
  rewrite length_fmap, list_lookup_fmap, Hrow, zeros_lookup by exact Hi.
  split; [exact Hlen|]. simpl. rewrite vtimes_zero. reflexivity.
Qed.

Lemma mask_set_lookup (arr : list vec) (mask : list bool) (v x : vec) (m : bool) (k : nat) :
  arr !! k = Some x -> mask !! k = Some m ->
  mask_set arr mask v !! k = Some (if m then v else x).
Proof.
  revert mask k. induction arr as [|y arr IH]; intros mask k Hx Hm.
  - rewrite lookup_nil in Hx. discriminate.
  - destruct mask as [|m' mask]; [rewrite lookup_nil in Hm; discriminate|].
    destruct k as [|k]; simpl in *.
    + injection Hx as ->. injection Hm as ->. reflexivity.
    + apply IH; assumption.
Qed.

(** The row of an agent that belongs to exactly one group, [group], of the
    list the loop runs over: it is zero when the body reaches that group and
    nothing after that group changes it. *)
Lemma isolated_member (body : list vec -> list nat -> result (list vec))
    (gs1 gs2 : list (list nat)) (group : list nat) (n i : nat) (F : list vec) :
  frames body ->
  for_each_group (Some (gs1 ++ group :: gs2)) body (zeros n) = Ok F ->
  (forall g, g ∈ gs1 ++ gs2 -> i ∉ g) -> (i < n)%nat ->
  exists mid mid',
    body mid group = Ok mid' /\ mid !! i = Some vzero /\ F !! i = mid' !! i.
Proof.
  intros Hb H Hi Hn. simpl in H.
  destruct (foldM_isolate _ _ _ _ _ _ _ Hb H Hi) as (mid & mid' & Hbody & _ & Hmid & HF).
  exists mid, mid'. split; [exact Hbody|]. split; [|exact HF].
  rewrite Hmid. apply zeros_lookup, Hn.
Qed.

(** The same, for a body that adds one array per group. *)
Lemma isolated_member_iadd (contribution : list nat -> result (list vec))
    (gs1 gs2 : list (list nat)) (group : list nat) (n i k : nat) (F vals : list vec)
    (v : vec) :
  for_each_group (Some (gs1 ++ group :: gs2))
    (fun forces group => vals ← contribution group; iadd_rows forces group vals)
    (zeros n) = Ok F ->
  (forall g, g ∈ gs1 ++ gs2 -> i ∉ g) -> (i < n)%nat -> NoDup group ->
  group !! k = Some i -> contribution group = Ok vals -> vals !! k = Some v ->
  F !! i = Some v.
Proof.
  intros H Hi Hn Hnd Hk Hc Hv.
  destruct (isolated_member _ _ _ _ _ _ _ (frames_iadd contribution) H Hi Hn)
    as (mid & mid' & Hbody & Hmid & ->).
  inv_bind Hbody. rewrite Hc in Hr. injection Hr as <-.
  rewrite (iadd_rows_member _ _ _ _ _ _ _ _ Hbody Hnd Hk Hv Hmid), vadd_zero_l.
  reflexivity.
Qed.

(** A loop that returns has run its body on every element. *)
Lemma foldM_ran {A B : Type} (body : B -> A -> result B) (xs1 xs2 : list A) (x : A)
    (acc F : B) :
  foldM body (xs1 ++ x :: xs2) acc = Ok F -> exists mid mid', body mid x = Ok mid'.
Proof.
  intros H. rewrite foldM_app in H. inv_bind H. simpl in H. inv_bind H. eauto.
Qed.

(** ** C1: GoalAttractiveForce *)

Lemma broadcast_same_length {A B C : Type} (op : A -> B -> C) (xs : list A) (ys : list B) :
  length xs = length ys -> broadcast op xs ys = Ok (zip_with op xs ys).
Proof. intros H. unfold broadcast. rewrite H, Nat.eqb_refl. reflexivity. Qed.

(** The matrix GoalAttractiveForce returns when the shapes agree, row by
    row as the source computes it. *)
Lemma goal_attractive_matrix (f : Force) (st : list agent) (v0 : list R)
    (e : list vec) (k : R) :
  state f = Some st -> initial_speeds f = Some v0 -> goal_vector f = Some e ->
  factor f = PNum k -> length v0 = length st -> length e = length st ->
  exists F, GoalAttractiveForce.get_force f = Ok F /\ length F = length st /\
    forall i a s d, st !! i = Some a -> v0 !! i = Some s -> e !! i = Some d ->
      F !! i = Some (vtimes (vscale (1 / tau a) (vsub (vscale s d) (vel a))) k).
Proof.
  intros Hst Hv0 He Hk Hlv Hle.
  unfold GoalAttractiveForce.get_force. rewrite Hst, Hv0, He, Hk. simpl.
  rewrite (broadcast_same_length _ v0 e) by congruence. simpl.
  rewrite broadcast_same_length
    by (rewrite length_zip_with, length_fmap, Hlv, Hle; apply Nat.min_id).
  simpl.
  rewrite broadcast_same_length
    by (rewrite !length_zip_with, !length_fmap, Hlv, Hle, !Nat.min_id; reflexivity).
  simpl. eexists. split; [reflexivity|]. split.
  - rewrite length_fmap, !length_zip_with, !length_fmap, Hlv, Hle, !Nat.min_id.
    reflexivity.
  - intros i a s d Ha Hs Hd.
    rewrite list_lookup_fmap, !lookup_zip_with, !list_lookup_fmap, Ha, Hs, Hd.
    reflexivity.
Qed.

(** C1.  With a stored state of [N] rows, a cached speed vector and a
    direction cache of [N] entries each, and a numeric factor,
    GoalAttractiveForce returns an [N x 2] matrix whose row [i] is
    [factor * (1 / tau_i) * (v0_i * e_i - velocity_i)]; with [tau_i = 0.5],
    [v0_i = 1], zero velocity and factor 1 the row is [2 * e_i]. *)
Theorem goal_attractive_rows (f : Force) (st : list agent) (v0 : list R)
    (e : list vec) (k : R) :
  state f = Some st -> initial_speeds f = Some v0 -> goal_vector f = Some e ->
  factor f = PNum k -> length v0 = length st -> length e = length st ->
  exists F, GoalAttractiveForce.get_force f = Ok F /\ length F = length st /\
    forall i a s d, st !! i = Some a -> v0 !! i = Some s -> e !! i = Some d ->
      F !! i = Some (vscale (k * (1 / tau a)) (vsub (vscale s d) (vel a))) /\
      (tau a = 0.5 -> s = 1 -> vel a = vzero -> k = 1 -> F !! i = Some (vscale 2 d)).
Proof.
  intros Hst Hv0 He Hk Hlv Hle.
  destruct (goal_attractive_matrix f st v0 e k Hst Hv0 He Hk Hlv Hle)
    as (F & HF & Hlen & Hrows).
  exists F. split; [exact HF|]. split; [exact Hlen|].
  intros i a s d Ha Hs Hd. rewrite (Hrows i a s d Ha Hs Hd). split.
  - f_equal. unfold vtimes, vscale, vsub; simpl. f_equal; ring.
  - intros Htau Hs1 Hvel Hk1. rewrite Htau, Hs1, Hvel, Hk1.
    f_equal. unfold vtimes, vscale, vsub, vzero; simpl. f_equal; lra.
Qed.

(** The end-to-end scenario: both rows are twice the desired direction. *)
Lemma goal_attractive_two_agents :
  exists F, GoalAttractiveForce.get_force goal_force_example = Ok F /\
    length F = 2%nat /\
    forall i d, desired_directions two_agents !! i = Some d -> F !! i = Some (vscale 2 d).
Proof.
  destruct (goal_attractive_rows goal_force_example two_agents [1; 1]
              (desired_directions two_agents) 1) as (F & HF & Hlen & Hrows);
    try reflexivity.
  exists F. split; [exact HF|]. split; [exact Hlen|].
  intros i d Hd.
  destruct i as [|[|i]]; simpl in Hd; [| |discriminate].
  - apply (Hrows 0%nat _ 1 d eq_refl eq_refl Hd); reflexivity.
  - apply (Hrows 1%nat _ 1 d eq_refl eq_refl Hd); reflexivity.
Defined.

(** ** Velocity damping *)

(** With a desired speed of zero GoalAttractiveForce is pure damping: the
    row is [- velocity_i / tau_i * factor]. *)
Theorem goal_attractive_damping (f : Force) (st : list agent) (v0 : list R)
    (e : list vec) (k : R) :
  state f = Some st -> initial_speeds f = Some v0 -> goal_vector f = Some e ->
  factor f = PNum k -> length v0 = length st -> length e = length st ->
  exists F, GoalAttractiveForce.get_force f = Ok F /\
    forall i a d, st !! i = Some a -> v0 !! i = Some 0 -> e !! i = Some d ->
      F !! i = Some (- (vel a).1 / tau a * k, - (vel a).2 / tau a * k).
Proof.
  intros Hst Hv0 He Hk Hlv Hle.
  destruct (goal_attractive_matrix f st v0 e k Hst Hv0 He Hk Hlv Hle)
    as (F & HF & _ & Hrows).
  exists F. split; [exact HF|].
  intros i a d Ha Hs Hd. etransitivity; [exact (Hrows i a 0 d Ha Hs Hd)|].
  f_equal. unfold vtimes, vscale, vsub; simpl. unfold Rdiv. f_equal; ring.
Qed.

(** Two agents moving at [(1, 2)] with a desired speed of zero. *)
Lemma goal_attractive_damping_example :
  exists F, GoalAttractiveForce.get_force
              (set_state (init "goal_attractive_force")
                 [ {| pos := (0, 0); vel := (1, 2); goal := (10, 0); tau := 0.5 |} ]
                 None None (Some [0])) = Ok F /\
    F !! 0%nat = Some (- 1 / 0.5 * 1, - 2 / 0.5 * 1).
Proof.
  destruct (goal_attractive_damping
              (set_state (init "goal_attractive_force")
                 [ {| pos := (0, 0); vel := (1, 2); goal := (10, 0); tau := 0.5 |} ]
                 None None (Some [0]))
              [ {| pos := (0, 0); vel := (1, 2); goal := (10, 0); tau := 0.5 |} ]
              [0]
              (desired_directions
                 [ {| pos := (0, 0); vel := (1, 2); goal := (10, 0); tau := 0.5 |} ])
              1) as (F & HF & Hrow); try reflexivity.
  exists F. split; [exact HF|].
  apply (Hrow 0%nat _ _ eq_refl eq_refl eq_refl).
Defined.

(** ** C2: GroupCoherenceForce *)

Section Coherence.

Variable group_center : list vec -> vec.

(** What the loop body computes for member [k] of a group: zero below the
    threshold, the normalised displacement toward the centroid otherwise. *)
Lemma coherence_group_vectors_lookup (st members : list agent) (group : list nat)
    (vectors : list vec) (k i : nat) (a : agent) :
  GroupCoherenceForce.group_vectors group_center st group = Ok vectors ->
  take_rows st group = Ok members ->
  group !! k = Some i -> st !! i = Some a ->
  let threshold := (INR (length group) - 1) / 2 in
  let d := vsub (group_center (pos <$> members)) (pos a) in
  vectors !! k = Some (if Rlt_dec (norm d) threshold then vzero else unit_vector d).
Proof.
  intros H Hm Hk Ha threshold d.
  unfold GroupCoherenceForce.group_vectors in H. rewrite Hm in H. simpl in H.
  injection H as <-.
  destruct (take_rows_lookup _ _ _ _ _ Hm Hk) as (a' & Ha' & Hmk).
  rewrite Ha in Ha'. injection Ha' as <-.
  erewrite mask_set_lookup.
  2: { rewrite !list_lookup_fmap, Hmk. reflexivity. }
  2: { rewrite !list_lookup_fmap, Hmk. reflexivity. }
  simpl. unfold Rltb. fold d. fold threshold.
  destruct (Rlt_dec (norm d) threshold); reflexivity.
Qed.

(** The row of the returned matrix for a member of one group only. *)
Lemma coherence_row (f : Force) (st members : list agent)
    (gs1 gs2 : list (list nat)) (group : list nat) (k i : nat) (a : agent)
    (kf : R) (F : list vec) :
  state f = Some st -> groups f = Some (gs1 ++ group :: gs2) -> factor f = PNum kf ->
  GroupCoherenceForce.get_force group_center f = Ok F ->
  take_rows st group = Ok members ->
  NoDup group -> (forall g, g ∈ gs1 ++ gs2 -> i ∉ g) ->
  group !! k = Some i -> st !! i = Some a ->
  let threshold := (INR (length group) - 1) / 2 in
  let d := vsub (group_center (pos <$> members)) (pos a) in
  F !! i = Some (vscale kf (if Rlt_dec (norm d) threshold then vzero else unit_vector d)).
Proof.
  intros Hst Hgs Hkf H Hm Hnd Hi Hk Ha threshold d.
  unfold GroupCoherenceForce.get_force, state_rows in H. rewrite Hst, Hgs, Hkf in H.
  simpl in H. inv_bind H. injection H as <-.
  destruct (GroupCoherenceForce.group_vectors group_center st group) as [vectors|e] eqn:Hv.
  - pose proof (coherence_group_vectors_lookup _ _ _ _ _ _ _ Hv Hm Hk Ha) as Hrow.
    rewrite list_lookup_fmap.
    rewrite (isolated_member_iadd _ _ _ _ _ _ _ _ _ _ Hr Hi
               (lookup_lt_Some _ _ _ Ha) Hnd Hk Hv Hrow).
    simpl. rewrite vtimes_vscale. reflexivity.
  - unfold GroupCoherenceForce.group_vectors in Hv. rewrite Hm in Hv. discriminate.
Qed.

(** C2, as the code has it.  For a member of a group, with
    [threshold = (group_size - 1) / 2], the centroid the group center of the
    member positions and [d] the vector from the member's position to the
    centroid, the array added for the group holds, for this member: the
    normalised [d] when the distance [norm d] is at least the threshold --
    equality included -- which has length one unless the member sits on the
    centroid; and exactly zero when the distance is below the threshold.
    When the member belongs to this group only (and is listed once in it),
    its row of the returned matrix is factor times that contribution. *)
Theorem coherence_hard_threshold (f : Force) (st members : list agent)
    (gs1 gs2 : list (list nat)) (group : list nat) (k i : nat) (a : agent)
    (kf : R) (F : list vec) :
  state f = Some st -> groups f = Some (gs1 ++ group :: gs2) -> factor f = PNum kf ->
  GroupCoherenceForce.get_force group_center f = Ok F ->
  take_rows st group = Ok members ->
  group !! k = Some i -> st !! i = Some a ->
  let threshold := (INR (length group) - 1) / 2 in
  let d := vsub (group_center (pos <$> members)) (pos a) in
  exists vectors contribution,
    GroupCoherenceForce.group_vectors group_center st group = Ok vectors /\
    vectors !! k = Some contribution /\
    (threshold <= norm d ->
       contribution = unit_vector d /\ (d <> vzero -> norm (unit_vector d) = 1)) /\
    (norm d < threshold -> contribution = vzero) /\
    (NoDup group -> (forall g, g ∈ gs1 ++ gs2 -> i ∉ g) ->
       F !! i = Some (vscale kf contribution)).
Proof.
  intros Hst Hgs Hkf H Hm Hk Ha threshold d.
  destruct (GroupCoherenceForce.group_vectors group_center st group)
    as [vectors|err] eqn:Hv.
  2: { unfold GroupCoherenceForce.group_vectors in Hv. rewrite Hm in Hv. discriminate. }
  pose proof (coherence_group_vectors_lookup _ _ _ _ _ _ _ Hv Hm Hk Ha) as Hrow.
  fold threshold d in Hrow. cbv zeta in Hrow.
  exists vectors. eexists. split; [reflexivity|]. split; [exact Hrow|].
  split; [|split].
  - intros Hle. destruct (Rlt_dec (norm d) threshold) as [Hlt|_]; [lra|].
    split; [reflexivity | apply unit_vector_norm].
  - intros Hlt. destruct (Rlt_dec (norm d) threshold) as [_|Hge]; [reflexivity|lra].
  - intros Hnd Hi.
    apply (coherence_row _ _ _ _ _ _ _ _ _ _ _ Hst Hgs Hkf H Hm Hnd Hi Hk Ha).
Qed.

End Coherence.

(** The numbers of the three-agent group. *)
Lemma trio_displacement :
  vsub (group_center_mean (pos <$> three_agents)) (1, 0) = (-1, 0).
Proof. unfold vsub, group_center_mean; simpl. f_equal; lra. Qed.

Lemma trio_threshold : (INR 3 - 1) / 2 = 1.
Proof. simpl. lra. Qed.

Lemma norm_west : norm (-1, 0) = 1.
Proof. apply norm_eq; [lra | simpl; lra]. Qed.

Lemma unit_vector_west : unit_vector (-1, 0) = (-1, 0).
Proof.
  unfold unit_vector. rewrite norm_west.
  destruct (Req_dec_T 1 0) as [H|_]; [lra|]. simpl. f_equal; lra.
Qed.

Lemma NoDup_trio : NoDup [0; 1; 2]%nat.
Proof. apply (bool_decide_unpack _). reflexivity. Qed.

(** The first agent of the trio stands at distance 1, the threshold, and is
    pulled by the unit vector toward the centroid. *)
Lemma coherence_hard_threshold_example :
  exists F, GroupCoherenceForce.get_force group_center_mean
              (trio "group_coherence_force") = Ok F /\
    F !! 0%nat = Some (-1, 0).
Proof.
  eexists. split; [reflexivity|].
  match goal with
  | |- ?F !! _ = _ =>
      set (F0 := F);
      destruct (coherence_hard_threshold group_center_mean (trio "group_coherence_force")
                  three_agents three_agents [] [] [0; 1; 2]%nat 0 0
                  {| pos := (1, 0); vel := (0, 0); goal := (5, 0); tau := 0.5 |} 1 F0
                  eq_refl eq_refl eq_refl eq_refl eq_refl eq_refl eq_refl)
        as (vectors & contribution & _ & _ & Hfar & _ & HF)
  end.
  simpl pos in Hfar. rewrite trio_displacement, norm_west, unit_vector_west in Hfar.
  destruct Hfar as [Hc _].
  { change (length [0; 1; 2]%nat) with 3%nat. rewrite trio_threshold. lra. }
  etransitivity; [apply HF|].
  - apply NoDup_trio.
  - intros g Hg. apply elem_of_nil in Hg. contradiction.
  - rewrite Hc. f_equal. unfold vscale; simpl. f_equal; lra.
Defined.

(** C2 as stated fails at the boundary: the first agent of the trio is at a
    distance equal to the threshold, and its row is not zero. *)
Lemma coherence_boundary_counterexample :
  norm (vsub (group_center_mean (pos <$> three_agents)) (1, 0)) = (INR 3 - 1) / 2 /\
  exists F, GroupCoherenceForce.get_force group_center_mean
              (trio "group_coherence_force") = Ok F /\
    F !! 0%nat = Some (-1, 0) /\ (-1, 0) <> vzero.
Proof.
  split.
  - rewrite trio_displacement, norm_west, trio_threshold. reflexivity.
  - eexists. split; [reflexivity|]. split.
    + match goal with
      | |- ?F !! _ = _ =>
          set (F0 := F);
          pose proof (coherence_row group_center_mean (trio "group_coherence_force")
                        three_agents three_agents [] [] [0; 1; 2]%nat 0 0
                        {| pos := (1, 0); vel := (0, 0); goal := (5, 0); tau := 0.5 |} 1 F0
                        eq_refl eq_refl eq_refl eq_refl eq_refl NoDup_trio) as Hrow
      end.
      etransitivity; [apply Hrow|].
      * intros g Hg. apply elem_of_nil in Hg. contradiction.
      * reflexivity.
      * reflexivity.
      * simpl pos. rewrite trio_displacement, norm_west.
        change (length [0; 1; 2]%nat) with 3%nat. rewrite trio_threshold.
        destruct (Rlt_dec 1 1) as [H|_]; [lra|].
        rewrite unit_vector_west. f_equal. unfold vscale; simpl. f_equal; lra.
    + unfold vzero. intros H. injection H as H. lra.
Qed.

(** ** C3: GroupRepulsiveForce *)

(** With a mapping as configuration, the force is the raw accumulation,
    whatever the mapping holds. *)
Lemma repulsive_is_raw (f : Force) (d : gmap string R) :
  config f = PDict d ->
  GroupRepulsiveForce.get_force f = GroupRepulsiveForce.raw_displacements f.
Proof.
  intros Hc. unfold GroupRepulsiveForce.get_force, GroupRepulsiveForce.raw_displacements.
  unfold get_or. rewrite Hc. simpl. reflexivity.
Qed.

(** C3.  Whatever threshold is configured, GroupRepulsiveForce returns what
    the simplified embedding returns that has neither the normalisation nor
    the threshold test: factor times the accumulated raw pairwise
    displacements of each group.  Two runs on the same state, groups and
    factor give the same result whatever their configurations hold. *)
Theorem repulsive_threshold_is_dead (f1 f2 : Force) (d1 d2 : gmap string R) :
  config f1 = PDict d1 -> config f2 = PDict d2 ->
  state f1 = state f2 -> groups f1 = groups f2 -> factor f1 = factor f2 ->
  GroupRepulsiveForce.get_force f1 = GroupRepulsiveForce.raw_displacements f1 /\
  GroupRepulsiveForce.get_force f1 = GroupRepulsiveForce.get_force f2.
Proof.
  intros Hc1 Hc2 Hst Hgs Hk. split; [apply (repulsive_is_raw _ _ Hc1)|].
  rewrite (repulsive_is_raw _ _ Hc1), (repulsive_is_raw _ _ Hc2).
  unfold GroupRepulsiveForce.raw_displacements, state_rows. rewrite Hst, Hgs, Hk. reflexivity.
Qed.

(** A threshold of 0.1 and one of 10 give the same force. *)
Lemma repulsive_threshold_is_dead_example :
  GroupRepulsiveForce.get_force (repulsive_with_threshold 0.1) =
    GroupRepulsiveForce.raw_displacements (repulsive_with_threshold 0.1) /\
  GroupRepulsiveForce.get_force (repulsive_with_threshold 0.1) =
    GroupRepulsiveForce.get_force (repulsive_with_threshold 10).
Proof.
  apply (repulsive_threshold_is_dead _ _ {[ "threshold" := 0.1 ]} {[ "threshold" := 10 ]});
    reflexivity.
Defined.

(** ** C4: [load_config] *)

Lemma truthy_PDict (d : gmap string R) : truthy (PDict d) = true <-> d <> ∅.
Proof.
  simpl. rewrite negb_true_iff, Nat.eqb_neq. split.
  - intros Hs ->. apply Hs. apply map_size_empty.
  - intros Hd Hs. apply Hd. apply map_size_empty_iff, Hs.
Qed.

(** C4, as the code has it.  When the configuration holds a non-empty
    sub-mapping under the force's name, [load_config] sets [factor] to the
    sub-mapping's "factor" entry and [time_step] to the top-level "time_step"
    entry, whatever the sub-mapping holds under "time_step".  When the
    sub-mapping is absent or empty, [factor] and [time_step] keep their
    values, which are 1.0 and 0.4 on a fresh force. *)
Theorem load_config_effect (f : Force) (config_dict : gmap string pyval) :
  (forall d, config_dict !! name f = Some (PDict d) -> d <> ∅ ->
     exists f', load_config f config_dict = Ok f' /\
       factor f' = opt_pyval (d !! "factor") /\
       time_step f' = dict_get config_dict "time_step" /\
       config f' = PDict d /\ same_working_state f f') /\
  (config_dict !! name f = None \/ config_dict !! name f = Some (PDict ∅) ->
     exists f', load_config f config_dict = Ok f' /\
       factor f' = factor f /\ time_step f' = time_step f /\
       config f' = dict_get config_dict (name f) /\ same_working_state f f') /\
  (factor (init (name f)) = PNum 1 /\ time_step (init (name f)) = PNum 0.4).
Proof.
  split; [|split].
  - intros d Hd Hne. unfold load_config, dict_get. rewrite Hd. simpl default.
    apply truthy_PDict in Hne. rewrite Hne. simpl.
    eexists. split; [reflexivity|]. simpl. unfold same_working_state. simpl.
    rewrite ?Hd. repeat split.
  - intros [Hd | Hd]; unfold load_config, dict_get; rewrite Hd; simpl;
      eexists; (split; [reflexivity|]); unfold same_working_state; simpl;
      rewrite ?Hd; repeat split.
  - split; reflexivity.
Qed.

(** The global [time_step] wins over the one in the sub-mapping. *)
Lemma load_config_global_time_step :
  exists f', load_config (init "goal_attractive_force") config_both_time_steps = Ok f' /\
    factor f' = PNum 2 /\ time_step f' = PNum 0.25.
Proof.
  destruct (load_config_effect (init "goal_attractive_force") config_both_time_steps)
    as (Hpresent & _ & _).
  destruct (Hpresent {[ "factor" := 2; "time_step" := 0.1 ]}) as (f' & Hf & Hfac & Hts & _).
  - reflexivity.
  - intros Hempty. apply (f_equal (fun m : gmap string R => m !! "factor")) in Hempty.
    vm_compute in Hempty. discriminate.
  - exists f'. split; [exact Hf|]. split; [exact Hfac | exact Hts].
Defined.

(** C4 as stated fails on an empty sub-mapping: it is present under the
    force's name, yet [time_step] keeps 0.4 instead of taking the top-level
    0.25, and [factor] keeps 1.0. *)
Lemma load_config_empty_submap :
  config_empty_submap !! "goal_attractive_force" = Some (PDict ∅) /\
  dict_get config_empty_submap "time_step" = PNum 0.25 /\
  exists f', load_config (init "goal_attractive_force") config_empty_submap = Ok f' /\
    time_step f' = PNum 0.4 /\ factor f' = PNum 1 /\
    time_step f' <> dict_get config_empty_submap "time_step".
Proof.
  split; [reflexivity|]. split; [reflexivity|].
  eexists. split; [reflexivity|]. split; [reflexivity|]. split; [reflexivity|].
  change (PNum 0.4 <> PNum 0.25). intros H. injection H as H. lra.
Qed.

(** ** C5: SpaceRepulsiveForce without a space *)

Section SpaceNone.

Variable grad_r_aB :
  Space -> pyval -> pyval -> option (list agent) -> result (list (list vec)).

(** C5.  With [space = None], SpaceRepulsiveForce returns the [N x 2] matrix
    whose entries are all exactly zero, for every state (any number of rows,
    none included), every numeric factor and every configuration. *)
Theorem space_none_zero (f : Force) (st : list agent) (k : R) :
  state f = Some st -> space f = None -> factor f = PNum k ->
  SpaceRepulsiveForce.get_force grad_r_aB f = Ok (zeros (length st)).
Proof.
  intros Hst Hsp Hk.
  unfold SpaceRepulsiveForce.get_force, SpaceRepulsiveForce.obstacle_forces, state_rows.
  rewrite Hsp, Hst, Hk. simpl. f_equal. unfold zeros.
  rewrite !fmap_replicate. simpl. rewrite vtimes_zero. reflexivity.
Qed.

End SpaceNone.

(** Two agents, a factor of 3 taken from the configuration, no space. *)
Lemma space_none_zero_example :
  exists f, load_config (init "space_repulsive_force")
              {[ "space_repulsive_force" := PDict {[ "factor" := 3 ]} ]} = Ok f /\
    SpaceRepulsiveForce.get_force (fun _ _ _ _ => Raise ValueError)
      (set_state f two_agents None None None) = Ok [vzero; vzero].
Proof.
  eexists. split; [reflexivity|].
  apply (space_none_zero _ _ two_agents 3); reflexivity.
Defined.

(** ** C6: GroupGazeForce *)

Lemma unit_vector_norm_le (v : vec) : norm (unit_vector v) <= 1.
Proof.
  destruct (Req_dec_T (norm v) 0) as [H0|Hn].
  - apply norm_zero_iff in H0. rewrite H0, unit_vector_zero.
    replace (norm vzero) with 0; [lra|]. symmetry. apply norm_zero_iff. reflexivity.
  - rewrite unit_vector_norm; [lra|]. intros Hv. apply Hn, norm_zero_iff, Hv.
Qed.


Lemma arccos_in_domain (x : R) :
  -1 <= x <= 1 -> GroupGazeForce.arccos x = Some (acos x).
Proof.
  intros [Hlo Hhi]. unfold GroupGazeForce.arccos.
  destruct (Rle_dec (-1) x); [|contradiction].
  destruct (Rle_dec x 1); [reflexivity | contradiction].
Qed.

Lemma arccos_outside (x : R) :
  x < -1 \/ 1 < x -> GroupGazeForce.arccos x = None.
Proof.
  intros H. unfold GroupGazeForce.arccos.
  destruct (Rle_dec (-1) x); [|reflexivity].
  destruct (Rle_dec x 1); [lra | reflexivity].
Qed.


Lemma radians_zero : GroupGazeForce.radians 0 = 0.
Proof. unfold GroupGazeForce.radians. apply Rmult_0_l. Qed.

Lemma vscale_zero_l (v : vec) : vscale (- 0) v = vzero.
Proof. unfold vscale, vzero. f_equal; lra. Qed.

Lemma vscale_zero_r (k : R) : vscale k vzero = vzero.
Proof. unfold vscale, vzero; simpl. f_equal; lra. Qed.

Section Gaze.

Variable group_center : list vec -> vec.

(** What the loop body computes for member [k] of a group. *)
Lemma gaze_group_force_lookup (va : R) (f : Force) (st members : list agent)
    (e : list vec) (group : list nat) (force : list vec) (k i : nat) (a : agent)
    (d : vec) :
  GroupGazeForce.group_force group_center va f st group = Ok force ->
  goal_vector f = Some e -> take_rows st group = Ok members ->
  group !! k = Some i -> st !! i = Some a -> e !! i = Some d ->
  let c := unit_vector (vsub (group_center (drop_row k (pos <$> members))) (pos a)) in
  force !! k =
    Some (vscale (- GroupGazeForce.radians
                      (GroupGazeForce.excess va (GroupGazeForce.com_angle d c))) d).
Proof.
  intros H He Hm Hk Ha Hd c.
  unfold GroupGazeForce.group_force in H. rewrite Hm, He in H. simpl in H.
  inv_bind H. injection H as <-.
  destruct (take_rows_lookup _ _ _ _ _ Hm Hk) as (a' & Ha' & Hmk).
  rewrite Ha in Ha'. injection Ha' as <-.
  destruct (take_rows_lookup _ _ _ _ _ Hr Hk) as (d' & Hd' & Hdk).
  rewrite Hd in Hd'. injection Hd' as <-.
  rewrite lookup_zip_with, list_lookup_fmap, lookup_zip_with, Hdk. simpl.
  rewrite list_lookup_fmap, list_lookup_imap, list_lookup_fmap, Hmk. simpl.
  reflexivity.
Qed.

(** The row of the returned matrix for a member of one group only, when
    that group has more than one member. *)
Lemma gaze_row (f : Force) (st members : list agent) (e : list vec)
    (gs1 gs2 : list (list nat)) (group : list nat) (k i : nat) (a : agent)
    (d : vec) (kf va : R) (F : list vec) :
  state f = Some st -> groups f = Some (gs1 ++ group :: gs2) -> factor f = PNum kf ->
  goal_vector f = Some e -> get_or (config f) "fov_phi" 100 = Ok va ->
  GroupGazeForce.get_force group_center f = Ok F ->
  take_rows st group = Ok members ->
  NoDup group -> (forall g, g ∈ gs1 ++ gs2 -> i ∉ g) ->
  group !! k = Some i -> st !! i = Some a -> e !! i = Some d ->
  (1 < length group)%nat ->
  let c := unit_vector (vsub (group_center (drop_row k (pos <$> members))) (pos a)) in
  exists force,
    GroupGazeForce.group_force group_center va f st group = Ok force /\
    force !! k =
      Some (vscale (- GroupGazeForce.radians
                        (GroupGazeForce.excess va (GroupGazeForce.com_angle d c))) d) /\
    F !! i =
      Some (vscale kf
              (vscale (- GroupGazeForce.radians
                           (GroupGazeForce.excess va (GroupGazeForce.com_angle d c))) d)).
Proof.
  intros Hst Hgs Hkf He Hva H Hm Hnd Hi Hk Ha Hd Hlen c.
  unfold GroupGazeForce.get_force, state_rows in H. rewrite Hst, Hva, Hgs, Hkf in H.
  simpl in H. inv_bind H. injection H as <-.
  destruct (isolated_member _ _ _ _ _ _ _
              (frames_gaze group_center va f st) Hr Hi (lookup_lt_Some _ _ _ Ha))
    as (mid & mid' & Hbody & Hmid & HF).
  destruct (Nat.leb (length group) 1) eqn:Hle; [apply Nat.leb_le in Hle; lia|].
  inv_bind Hbody. exists r0. split; [exact Hr0|].
  pose proof (gaze_group_force_lookup _ _ _ _ _ _ _ _ _ _ _ Hr0 He Hm Hk Ha Hd) as Hrow.
  split; [exact Hrow|].
  rewrite list_lookup_fmap, HF.
  rewrite (iadd_rows_member _ _ _ _ _ _ _ _ Hbody Hnd Hk Hrow Hmid), vadd_zero_l.
  simpl. rewrite vtimes_vscale. reflexivity.
Qed.

(** A group of at most one member is skipped. *)
Lemma gaze_small_group_row (f : Force) (st : list agent)
    (gs1 gs2 : list (list nat)) (group : list nat) (i : nat) (F : list vec) :
  state f = Some st -> groups f = Some (gs1 ++ group :: gs2) ->
  GroupGazeForce.get_force group_center f = Ok F ->
  (forall g, g ∈ gs1 ++ gs2 -> i ∉ g) -> (i < length st)%nat ->
  (length group <= 1)%nat ->
  F !! i = Some vzero.
Proof.
  intros Hst Hgs H Hi Hlt Hlen.
  unfold GroupGazeForce.get_force, state_rows in H. rewrite Hst, Hgs in H.
  simpl in H. inv_bind H. inv_bind H.
  destruct (isolated_member _ _ _ _ _ _ _
              (frames_gaze group_center r f st) Hr0 Hi Hlt)
    as (mid & mid' & Hbody & Hmid & HF).
  apply Nat.leb_le in Hlen. rewrite Hlen in Hbody. injection Hbody as <-.
  apply times_factor_inv in H as (kf & _ & ->).
  rewrite list_lookup_fmap, HF, Hmid. simpl. rewrite vtimes_zero. reflexivity.
Qed.

(** The array [force] exists for every group of more than one member that
    a returning [get_force] has met. *)
Lemma gaze_group_force_ran (f : Force) (st : list agent)
    (gs1 gs2 : list (list nat)) (group : list nat) (va : R) (F : list vec) :
  state f = Some st -> groups f = Some (gs1 ++ group :: gs2) ->
  get_or (config f) "fov_phi" 100 = Ok va ->
  GroupGazeForce.get_force group_center f = Ok F ->
  (1 < length group)%nat ->
  exists force, GroupGazeForce.group_force group_center va f st group = Ok force.
Proof.
  intros Hst Hgs Hva H Hlen.
  unfold GroupGazeForce.get_force, state_rows in H. rewrite Hst, Hva, Hgs in H.
  simpl in H. inv_bind H.
  destruct (foldM_ran _ _ _ _ _ _ Hr) as (mid & mid' & Hbody).
  destruct (Nat.leb (length group) 1) eqn:Hle; [apply Nat.leb_le in Hle; lia|].
  inv_bind Hbody. eauto.
Qed.


End Gaze.

(** The numbers of the pair in [three_agents]. *)
Lemma unit_vector_eq (v : vec) (n : R) :
  0 < n -> v.1 * v.1 + v.2 * v.2 = n * n -> unit_vector v = (v.1 / n, v.2 / n).
Proof.
  intros Hn Hsq. unfold unit_vector. rewrite (norm_eq v n) by (lra || exact Hsq).
  destruct (Req_dec_T n 0) as [H0|_]; [lra | reflexivity].
Qed.

Lemma acos_minus_one : acos (-1) = PI.
Proof. replace (-1) with (- (1)) by lra. rewrite acos_opp, acos_1. lra. Qed.

Lemma degrees_PI : GroupGazeForce.degrees PI = 180.
Proof. unfold GroupGazeForce.degrees. field. apply PI_neq0. Qed.

Lemma NoDup_pair : NoDup [0; 1]%nat.
Proof. apply (bool_decide_unpack _). reflexivity. Qed.




(** ** C7: the dot product is not clamped *)

Section GazeDomain.

Variable group_center : list vec -> vec.

(** C7, as the code has it.  For a member of a group of more than one
    member, the dot product of the member's cached direction and the unit
    direction toward the others' centroid goes to [arccos] as computed,
    without clamping.  Inside [[-1, 1]] the angle is the arccos in degrees,
    which is also what clamping first would give.  Outside [[-1, 1]] the
    arccos is NaN, the test against the vision angle is false, and the array
    added for the group holds the zero vector for this member; when the
    member belongs to this group only (and is listed once in it) its row of
    the returned matrix is zero.  No NaN reaches the matrix. *)
Theorem gaze_dot_unclamped (f : Force) (st members : list agent) (e : list vec)
    (gs1 gs2 : list (list nat)) (group : list nat) (k i : nat) (a : agent)
    (d : vec) (kf va : R) (F : list vec) :
  state f = Some st -> groups f = Some (gs1 ++ group :: gs2) -> factor f = PNum kf ->
  goal_vector f = Some e -> get_or (config f) "fov_phi" 100 = Ok va ->
  GroupGazeForce.get_force group_center f = Ok F ->
  take_rows st group = Ok members ->
  group !! k = Some i -> st !! i = Some a -> e !! i = Some d ->
  (1 < length group)%nat ->
  let c := unit_vector (vsub (group_center (drop_row k (pos <$> members))) (pos a)) in
  (-1 <= dot d c <= 1 ->
     GroupGazeForce.com_angle d c = Some (GroupGazeForce.degrees (acos (dot d c))) /\
     GroupGazeForce.com_angle d c = Some (com_angle_clamped d c)) /\
  (dot d c < -1 \/ 1 < dot d c ->
     GroupGazeForce.com_angle d c = None /\
     exists force,
       GroupGazeForce.group_force group_center va f st group = Ok force /\
       force !! k = Some vzero /\
       (NoDup group -> (forall g, g ∈ gs1 ++ gs2 -> i ∉ g) -> F !! i = Some vzero)).
Proof.
  intros Hst Hgs Hkf He Hva H Hm Hk Ha Hd Hlen c. split.
  - intros Hin. unfold GroupGazeForce.com_angle, com_angle_clamped, clamp.
    rewrite (arccos_in_domain _ Hin). simpl. split; [reflexivity|].
    rewrite Rmin_right by lra. rewrite Rmax_right by lra. reflexivity.
  - intros Hout.
    assert (Hnan : GroupGazeForce.com_angle d c = None).
    { unfold GroupGazeForce.com_angle. rewrite (arccos_outside _ Hout). reflexivity. }
    split; [exact Hnan|].
    destruct (gaze_group_force_ran _ _ _ _ _ _ _ _ Hst Hgs Hva H Hlen) as [force Hforce].
    pose proof (gaze_group_force_lookup _ _ _ _ _ _ _ _ _ _ _ _ Hforce He Hm Hk Ha Hd)
      as Hrow.
    cbv zeta in Hrow. fold c in Hrow. rewrite Hnan in Hrow. simpl in Hrow.
    rewrite radians_zero, vscale_zero_l in Hrow.
    exists force. split; [exact Hforce|]. split; [exact Hrow|].
    intros Hnd Hi.
    destruct (gaze_row _ _ _ _ _ _ _ _ _ _ _ _ _ _ _
                Hst Hgs Hkf He Hva H Hm Hnd Hi Hk Ha Hd Hlen)
      as (force' & _ & _ & HF).
    fold c in HF. rewrite Hnan in HF. simpl in HF.
    rewrite HF, radians_zero, vscale_zero_l, vscale_zero_r. reflexivity.
Qed.

End GazeDomain.

Lemma pow2_54 : 2 ^ 54 = 18014398509481984.
Proof. rewrite pow_IZR. f_equal. Qed.

Lemma pow2_53 : 2 ^ 53 = 9007199254740992.
Proof. rewrite pow_IZR. f_equal. Qed.

(** Binary64 arithmetic on the agents of [back_to_back]: normalising
    [(115, 252)] gives exactly [rounded_direction], and the dot product of
    that direction with the normalised opposite vector is below [-1]. *)
Lemma float64_rounded_direction :
  (Float64.value (fst (Float64.normalize_row Float64.ahead)),
   Float64.value (snd (Float64.normalize_row Float64.ahead))) = rounded_direction /\
  PrimFloat.ltb
    (Float64.dot (Float64.normalize_row Float64.ahead)
                 (Float64.normalize_row Float64.behind))
    Float64.minus_one = true.
Proof.
  split; [|vm_compute; reflexivity].
  unfold Float64.value.
  replace (FloatOps.Prim2SF (fst (Float64.normalize_row Float64.ahead)))
    with (SpecFloat.S754_finite false 7478901908268694 (-54))
    by (vm_compute; reflexivity).
  replace (FloatOps.Prim2SF (snd (Float64.normalize_row Float64.ahead)))
    with (SpecFloat.S754_finite false 8194275134277004 (-53))
    by (vm_compute; reflexivity).
  unfold rounded_direction. cbn [powerRZ].
  change (Pos.to_nat 54) with 54%nat. change (Pos.to_nat 53) with 53%nat.
  rewrite pow2_54, pow2_53. f_equal; lra.
Qed.

(** The numbers of [back_to_back]. *)
Lemma back_com_direction :
  unit_vector
    (vsub (group_center_mean (drop_row 0 (pos <$> back_to_back))) (0, 0))
  = (- (115 / 277), - (252 / 277)).
Proof.
  rewrite (unit_vector_eq _ 277) by (unfold vsub, group_center_mean; simpl; lra).
  unfold vsub, group_center_mean; simpl. f_equal; lra.
Qed.

Lemma rounded_dot_below : dot rounded_direction (- (115 / 277), - (252 / 277)) < -1.
Proof. unfold dot, rounded_direction; simpl. lra. Qed.

(** The first agent of [back_to_back]: the dot product is below [-1], the
    angle is NaN and the row is zero. *)
Lemma gaze_dot_unclamped_example :
  exists F, GroupGazeForce.get_force group_center_mean gaze_rounded = Ok F /\
    F !! 0%nat = Some vzero.
Proof.
  eexists. split; [reflexivity|].
  match goal with
  | |- ?F !! _ = _ =>
      set (F0 := F);
      destruct (gaze_dot_unclamped group_center_mean gaze_rounded
                  back_to_back back_to_back
                  [rounded_direction; rounded_direction] [] [] [0; 1]%nat 0 0
                  {| pos := (0, 0); vel := (0, 0); goal := (115, 252); tau := 0.5 |}
                  rounded_direction 1 100 F0
                  eq_refl eq_refl eq_refl eq_refl eq_refl eq_refl eq_refl
                  eq_refl eq_refl eq_refl)
        as (_ & Hout)
  end.
  - simpl. lia.
  - simpl pos in Hout. rewrite back_com_direction in Hout.
    destruct Hout as (_ & force & _ & _ & HF); [left; apply rounded_dot_below|].
    apply HF; [apply NoDup_pair|].
    intros g Hg. apply elem_of_nil in Hg. contradiction.
Defined.

(** C7 as stated fails on [back_to_back]: the dot product that reaches
    [arccos] is below [-1], the angle is NaN, and the first agent's row is
    zero, where the clamped angle would be 180 degrees, above the vision
    angle of 100. *)
Lemma gaze_not_clamped_counterexample :
  dot rounded_direction
      (unit_vector (vsub (group_center_mean (drop_row 0 (pos <$> back_to_back))) (0, 0)))
    < -1 /\
  GroupGazeForce.com_angle rounded_direction
      (unit_vector (vsub (group_center_mean (drop_row 0 (pos <$> back_to_back))) (0, 0)))
    = None /\
  com_angle_clamped rounded_direction
      (unit_vector (vsub (group_center_mean (drop_row 0 (pos <$> back_to_back))) (0, 0)))
    = 180 /\
  exists F, GroupGazeForce.get_force group_center_mean gaze_rounded = Ok F /\
    F !! 0%nat = Some vzero.
Proof.
  rewrite back_com_direction. pose proof rounded_dot_below as Hdot.
  split; [exact Hdot|]. split; [|split].
  - unfold GroupGazeForce.com_angle. rewrite arccos_outside by (left; exact Hdot).
    reflexivity.
  - unfold com_angle_clamped, clamp.
    rewrite Rmin_right by lra. rewrite Rmax_left by lra.
    rewrite acos_minus_one. apply degrees_PI.
  - eexists. split; [reflexivity|].
    match goal with
    | |- ?F !! _ = _ =>
        set (F0 := F);
        destruct (gaze_row group_center_mean gaze_rounded
                    back_to_back back_to_back
                    [rounded_direction; rounded_direction] [] [] [0; 1]%nat 0 0
                    {| pos := (0, 0); vel := (0, 0); goal := (115, 252); tau := 0.5 |}
                    rounded_direction 1 100 F0
                    eq_refl eq_refl eq_refl eq_refl eq_refl eq_refl eq_refl NoDup_pair)
          as (force & _ & _ & HF)
    end.
    + intros g Hg. apply elem_of_nil in Hg. contradiction.
    + reflexivity.
    + reflexivity.
    + reflexivity.
    + simpl. lia.
    + simpl pos in HF. rewrite back_com_direction in HF.
      unfold GroupGazeForce.com_angle in HF.
      rewrite arccos_outside in HF by (left; exact Hdot).
      etransitivity; [exact HF|]. simpl.
      rewrite radians_zero, vscale_zero_l, vscale_zero_r. reflexivity.
Qed.

(** ** C6 on a cached direction that rounding left longer than one *)





(** ** C8: [set_state] *)

(** C8.  [set_state] replaces the state, groups and space by its arguments
    and recomputes the desired-direction cache from the new state;
    [initial_speeds] takes the argument when one is given and keeps the cached
    value (possibly [None]) when it is omitted; nothing else changes.  Across
    two calls, a value cached by the first survives a second call that omits
    it, while the direction cache follows the second state. *)
Theorem set_state_effect (f : Force) (st st' : list agent)
    (g g' : option (list (list nat))) (sp sp' : option Space)
    (given : option (list R)) (s : list R) :
  let f1 := set_state f st g sp given in
  (state f1 = Some st /\ groups f1 = g /\ space f1 = sp /\
   goal_vector f1 = Some (desired_directions st)) /\
  (initial_speeds (set_state f st g sp (Some s)) = Some s /\
   initial_speeds (set_state f st g sp None) = initial_speeds f /\
   initial_speeds (set_state (init (name f)) st g sp None) = None) /\
  (name f1 = name f /\ factor f1 = factor f /\ time_step f1 = time_step f /\
   config f1 = config f) /\
  (let f2 := set_state (set_state f st g sp (Some s)) st' g' sp' None in
   initial_speeds f2 = Some s /\ state f2 = Some st' /\
   goal_vector f2 = Some (desired_directions st')).
Proof. simpl. repeat split. Qed.

(** ** C9: GroupCoherenceForceAlt *)

Lemma tanh_bounds (x : R) : -1 < tanh x < 1.
Proof.
  unfold tanh, sinh, cosh.
  pose proof (exp_pos x) as Ha. pose proof (exp_pos (- x)) as Hb.
  set (a := exp x) in *. set (b := exp (- x)) in *.
  replace ((a - b) / 2 / ((a + b) / 2)) with ((a - b) / (a + b)) by (field; lra).
  split.
  - apply Rmult_lt_reg_r with (a + b); [lra|].
    replace ((a - b) / (a + b) * (a + b)) with (a - b) by (field; lra). lra.
  - apply Rmult_lt_reg_r with (a + b); [lra|].
    replace ((a - b) / (a + b) * (a + b)) with (a - b) by (field; lra). lra.
Qed.

(** The gate lies strictly between 0 and 1. *)
Lemma softened_factor_bounds (threshold n : R) :
  0 < GroupCoherenceForceAlt.softened_factor threshold n < 1.
Proof.
  unfold GroupCoherenceForceAlt.softened_factor.
  pose proof (tanh_bounds (n - threshold)). lra.
Qed.

Lemma tanh_zero : tanh 0 = 0.
Proof. unfold tanh. rewrite sinh_0. unfold Rdiv. apply Rmult_0_l. Qed.

Section CoherenceAlt.

Variable group_center : list vec -> vec.

Lemma coherence_alt_group_vectors_lookup (st members : list agent) (group : list nat)
    (vectors : list vec) (k i : nat) (a : agent) :
  GroupCoherenceForceAlt.group_vectors group_center st group = Ok vectors ->
  take_rows st group = Ok members ->
  group !! k = Some i -> st !! i = Some a ->
  let threshold := (INR (length group) - 1) / 2 in
  let d := vsub (group_center (pos <$> members)) (pos a) in
  vectors !! k =
    Some (vtimes d (GroupCoherenceForceAlt.softened_factor threshold (norm d))).
Proof.
  intros H Hm Hk Ha threshold d.
  unfold GroupCoherenceForceAlt.group_vectors in H. rewrite Hm in H. simpl in H.
  injection H as <-.
  destruct (take_rows_lookup _ _ _ _ _ Hm Hk) as (a' & Ha' & Hmk).
  rewrite Ha in Ha'. injection Ha' as <-.
  unfold speeds. rewrite lookup_zip_with, !list_lookup_fmap, Hmk. reflexivity.
Qed.

(** C9.  For a member of a group, with [threshold = (group_size - 1) / 2]
    and [d] the raw displacement from the member toward the group centroid,
    the array added for the group holds [d] scaled by the gate
    [g = (tanh (norm d - threshold) + 1) / 2], and [g] lies strictly between
    0 and 1.  When the member belongs to this group only (and is listed once
    in it), its row of the returned matrix is factor times that
    contribution. *)
Theorem coherence_alt_soft_gate (f : Force) (st members : list agent)
    (gs1 gs2 : list (list nat)) (group : list nat) (k i : nat) (a : agent)
    (kf : R) (F : list vec) :
  state f = Some st -> groups f = Some (gs1 ++ group :: gs2) -> factor f = PNum kf ->
  GroupCoherenceForceAlt.get_force group_center f = Ok F ->
  take_rows st group = Ok members ->
  group !! k = Some i -> st !! i = Some a ->
  let threshold := (INR (length group) - 1) / 2 in
  let d := vsub (group_center (pos <$> members)) (pos a) in
  let g := (tanh (norm d - threshold) + 1) / 2 in
  exists vectors,
    GroupCoherenceForceAlt.group_vectors group_center st group = Ok vectors /\
    vectors !! k = Some (vscale g d) /\
    0 < g < 1 /\
    (NoDup group -> (forall g', g' ∈ gs1 ++ gs2 -> i ∉ g') ->
       F !! i = Some (vscale kf (vscale g d))).
Proof.
  intros Hst Hgs Hkf H Hm Hk Ha threshold d g.
  destruct (GroupCoherenceForceAlt.group_vectors group_center st group)
    as [vectors|err] eqn:Hv.
  2: { unfold GroupCoherenceForceAlt.group_vectors in Hv. rewrite Hm in Hv. discriminate. }
  pose proof (coherence_alt_group_vectors_lookup _ _ _ _ _ _ _ Hv Hm Hk Ha) as Hrow.
  cbv zeta in Hrow. rewrite vtimes_vscale in Hrow.
  exists vectors. split; [reflexivity|]. split; [exact Hrow|].
  split; [apply softened_factor_bounds|].
  intros Hnd Hi.
  unfold GroupCoherenceForceAlt.get_force, state_rows in H. rewrite Hst, Hgs, Hkf in H.
  simpl in H. inv_bind H. injection H as <-.
  rewrite list_lookup_fmap.
  rewrite (isolated_member_iadd _ _ _ _ _ _ _ _ _ _ Hr Hi
             (lookup_lt_Some _ _ _ Ha) Hnd Hk Hv Hrow).
  simpl. rewrite vtimes_vscale. reflexivity.
Qed.

End CoherenceAlt.

(** The first agent of the trio: displacement [(-1, 0)], distance equal to
    the threshold, gate one half. *)
Lemma coherence_alt_soft_gate_example :
  exists F, GroupCoherenceForceAlt.get_force group_center_mean
              (trio "group_coherence_force_alt") = Ok F /\
    F !! 0%nat = Some (- (1 / 2), 0).
Proof.
  eexists. split; [reflexivity|].
  match goal with
  | |- ?F !! _ = _ =>
      set (F0 := F);
      destruct (coherence_alt_soft_gate group_center_mean
                  (trio "group_coherence_force_alt")
                  three_agents three_agents [] [] [0; 1; 2]%nat 0 0
                  {| pos := (1, 0); vel := (0, 0); goal := (5, 0); tau := 0.5 |} 1 F0
                  eq_refl eq_refl eq_refl eq_refl eq_refl eq_refl eq_refl)
        as (vectors & _ & _ & _ & HF)
  end.
  simpl pos in HF. rewrite trio_displacement, norm_west in HF.
  change (length [0; 1; 2]%nat) with 3%nat in HF. rewrite trio_threshold in HF.
  replace (1 - 1) with 0 in HF by lra. rewrite tanh_zero in HF.
  etransitivity; [apply HF|].
  - apply NoDup_trio.
  - intros g Hg. apply elem_of_nil in Hg. contradiction.
  - f_equal. unfold vscale; simpl. f_equal; lra.
Defined.

(** ** C10: rows outside every group *)

Section OutsideGroups.

Variable group_center : list vec -> vec.

(** C10.  In each of the four group variants (GroupCoherenceForce,
    GroupCoherenceForceAlt, GroupRepulsiveForce, GroupGazeForce), whenever
    [get_force] returns a matrix it has one row per agent, and the row of an
    agent that appears in no group is exactly the zero vector; with
    [groups = None] that is every row. *)
Theorem outside_groups_zero (f : Force) (st : list agent) (F : list vec) (i : nat) :
  GroupCoherenceForce.get_force group_center f = Ok F \/
  GroupCoherenceForceAlt.get_force group_center f = Ok F \/
  GroupRepulsiveForce.get_force f = Ok F \/
  GroupGazeForce.get_force group_center f = Ok F ->
  state f = Some st ->
  (i < length st)%nat ->
  (forall gs g, groups f = Some gs -> g ∈ gs -> i ∉ g) ->
  length F = length st /\ F !! i = Some vzero.
Proof.
  intros H Hst Hi Hout.
  destruct H as [H | [H | [H | H]]].
  - unfold GroupCoherenceForce.get_force, state_rows in H. rewrite Hst in H. simpl in H.
    inv_bind H.
    destruct (for_each_group_frames _ _ _ _ (frames_iadd _) Hr) as [Hlen Hfr].
    apply (scaled_zero_row _ _ _ _ _ H).
    + rewrite Hlen. apply length_replicate.
    + apply Hfr, Hout.
    + exact Hi.
  - unfold GroupCoherenceForceAlt.get_force, state_rows in H. rewrite Hst in H. simpl in H.
    inv_bind H.
    destruct (for_each_group_frames _ _ _ _ (frames_iadd _) Hr) as [Hlen Hfr].
    apply (scaled_zero_row _ _ _ _ _ H).
    + rewrite Hlen. apply length_replicate.
    + apply Hfr, Hout.
    + exact Hi.
  - unfold GroupRepulsiveForce.get_force, state_rows in H. inv_bind H.
    rewrite Hst in H. simpl in H. inv_bind H.
    destruct (for_each_group_frames _ _ _ _ (frames_repulsive _ _) Hr0) as [Hlen Hfr].
    apply (scaled_zero_row _ _ _ _ _ H).
    + rewrite Hlen. apply length_replicate.
    + apply Hfr, Hout.
    + exact Hi.
  - unfold GroupGazeForce.get_force, state_rows in H. rewrite Hst in H. simpl in H.
    inv_bind H. inv_bind H.
    destruct (for_each_group_frames _ _ _ _ (frames_gaze _ _ _ _) Hr0) as [Hlen Hfr].
    apply (scaled_zero_row _ _ _ _ _ H).
    + rewrite Hlen. apply length_replicate.
    + apply Hfr, Hout.
    + exact Hi.
Qed.

End OutsideGroups.

(** The third of three agents is in no group: its row of the repulsive force
    is zero. *)
Lemma outside_groups_zero_example :
  exists F, GroupRepulsiveForce.get_force (pair_and_loner "group_repulsive_force") = Ok F /\
    length F = 3%nat /\ F !! 2%nat = Some vzero.
Proof.
  eexists. split; [reflexivity|].
  apply (outside_groups_zero group_center_mean
           (pair_and_loner "group_repulsive_force") three_agents _ 2).
  - right. right. left. reflexivity.
  - reflexivity.
  - simpl. lia.
  - intros gs g Hgs Hg. injection Hgs as <-.
    apply list_elem_of_singleton in Hg as ->.
    intros Hin. apply elem_of_cons in Hin as [Hin | Hin]; [discriminate|].
    apply list_elem_of_singleton in Hin. discriminate.
Defined.

(** ** The group variants return *)

Lemma foldM_Ok {A : Type} (body : list vec -> A -> result (list vec)) (xs : list A)
    (forces : list vec) (n : nat) :
  length forces = n ->
  (forall forces x, x ∈ xs -> length forces = n ->
     exists forces', body forces x = Ok forces' /\ length forces' = n) ->
  exists F, foldM body xs forces = Ok F /\ length F = n.
Proof.
  revert forces. induction xs as [|x xs IH]; intros forces Hlen Hbody; simpl.
  - exists forces. split; [reflexivity | exact Hlen].
  - destruct (Hbody forces x) as (forces' & Hx & Hlen'); [left | exact Hlen |].
    rewrite Hx. simpl. apply IH; [exact Hlen'|].
    intros forces0 y Hy. apply Hbody. right. exact Hy.
Qed.

Lemma mask_set_length (arr : list vec) (mask : list bool) (v : vec) :
  length (mask_set arr mask v) = length arr.
Proof.
  revert mask. induction arr as [|x arr IH]; intros mask; simpl; [reflexivity|].
  destruct mask as [|m mask]; simpl; [reflexivity|]. rewrite IH. reflexivity.
Qed.

(** A body that adds an array with one row per member succeeds when the
    members are rows of the matrix. *)
Lemma iadd_body_Ok (contribution : list nat -> result (list vec)) (forces : list vec)
    (group : list nat) (vals : list vec) (n : nat) :
  contribution group = Ok vals -> length vals = length group ->
  (forall i, i ∈ group -> (i < n)%nat) -> length forces = n ->
  exists forces',
    (vals ← contribution group; iadd_rows forces group vals) = Ok forces' /\
    length forces' = n.
Proof.
  intros Hc Hlen Hin Hn. rewrite Hc. simpl.
  destruct (iadd_rows_Ok forces group vals) as [forces' H]; [|exact Hlen|].
  { intros i Hi. rewrite Hn. apply Hin, Hi. }
  exists forces'. split; [exact H|]. rewrite (iadd_rows_length _ _ _ _ H). exact Hn.
Qed.

Section Returns.

Variable group_center : list vec -> vec.

Lemma coherence_group_vectors_Ok (st : list agent) (group : list nat) :
  (forall i, i ∈ group -> (i < length st)%nat) ->
  exists vectors,
    GroupCoherenceForce.group_vectors group_center st group = Ok vectors /\
    length vectors = length group.
Proof.
  intros Hin. destruct (take_rows_Ok st group Hin) as [members Hm].
  unfold GroupCoherenceForce.group_vectors. rewrite Hm. simpl.
  eexists. split; [reflexivity|].
  rewrite mask_set_length, !length_fmap. apply (take_rows_length _ _ _ Hm).
Qed.

Lemma coherence_alt_group_vectors_Ok (st : list agent) (group : list nat) :
  (forall i, i ∈ group -> (i < length st)%nat) ->
  exists vectors,
    GroupCoherenceForceAlt.group_vectors group_center st group = Ok vectors /\
    length vectors = length group.
Proof.
  intros Hin. destruct (take_rows_Ok st group Hin) as [members Hm].
  unfold GroupCoherenceForceAlt.group_vectors. rewrite Hm. simpl.
  eexists. split; [reflexivity|]. unfold speeds.
  rewrite length_zip_with, !length_fmap, Nat.min_id. apply (take_rows_length _ _ _ Hm).
Qed.

Lemma gaze_group_force_Ok (va : R) (f : Force) (st : list agent) (e : list vec)
    (group : list nat) :
  goal_vector f = Some e -> length e = length st ->
  (forall i, i ∈ group -> (i < length st)%nat) ->
  exists force,
    GroupGazeForce.group_force group_center va f st group = Ok force /\
    length force = length group.
Proof.
  intros He Hlen Hin. destruct (take_rows_Ok st group Hin) as [members Hm].
  destruct (take_rows_Ok e group) as [dirs Hd].
  { intros i Hi. rewrite Hlen. apply Hin, Hi. }
  unfold GroupGazeForce.group_force. rewrite Hm, He. simpl. rewrite Hd. simpl.
  eexists. split; [reflexivity|].
  rewrite !length_zip_with, !length_fmap, !length_zip_with, !length_fmap, length_imap,
    length_fmap, (take_rows_length _ _ _ Hm), (take_rows_length _ _ _ Hd).
  lia.
Qed.

Lemma repulsive_inner_Ok (threshold : R) (group : list nat) (ms : list (list vec))
    (forces : list vec) (n : nat) :
  (forall i, i ∈ group -> (i < n)%nat) -> length forces = n ->
  (forall m, m ∈ ms -> length m = length group) ->
  exists forces',
    foldM (GroupRepulsiveForce.add_displacements threshold group) ms forces = Ok forces' /\
    length forces' = n.
Proof.
  intros Hin Hn Hms. apply foldM_Ok; [exact Hn|].
  intros forces0 m Hm Hn0. rewrite add_displacements_eq.
  destruct (iadd_rows_Ok forces0 group m) as [forces' H].
  { intros i Hi. rewrite Hn0. apply Hin, Hi. }
  { apply Hms, Hm. }
  exists forces'. split; [exact H|]. rewrite (iadd_rows_length _ _ _ _ H). exact Hn0.
Qed.

(** With a stored state, a numeric factor, a mapping as configuration, a
    direction cache of [N] rows and groups made of row numbers below [N],
    each of the four group variants returns an [N x 2] matrix. *)
Theorem group_variants_return (f : Force) (st : list agent) (e : list vec)
    (cfg : gmap string R) (k : R) :
  state f = Some st -> factor f = PNum k -> config f = PDict cfg ->
  goal_vector f = Some e -> length e = length st ->
  (forall gs g i, groups f = Some gs -> g ∈ gs -> i ∈ g -> (i < length st)%nat) ->
  (exists F, GroupCoherenceForce.get_force group_center f = Ok F /\ length F = length st) /\
  (exists F, GroupCoherenceForceAlt.get_force group_center f = Ok F /\ length F = length st) /\
  (exists F, GroupRepulsiveForce.get_force f = Ok F /\ length F = length st) /\
  (exists F, GroupGazeForce.get_force group_center f = Ok F /\ length F = length st).
Proof.
  intros Hst Hk Hcfg He Hlen Hin.
  assert (Hloop : forall body,
            (forall forces g, (forall i, i ∈ g -> (i < length st)%nat) ->
               length forces = length st ->
               exists forces', body forces g = Ok forces' /\ length forces' = length st) ->
            exists F, for_each_group (groups f) body (zeros (length st)) = Ok F /\
                      length F = length st).
  { intros body Hbody. destruct (groups f) as [gs|] eqn:Hgs; simpl.
    - apply foldM_Ok; [apply length_replicate|].
      intros forces g Hg Hn. apply Hbody; [|exact Hn].
      intros i Hi. apply (Hin gs g i eq_refl Hg Hi).
    - exists (zeros (length st)). split; [reflexivity | apply length_replicate]. }
  assert (Hscale : forall forces : list vec, length forces = length st ->
            exists F, times_factor forces (factor f) = Ok F /\ length F = length st).
  { intros forces Hn. rewrite Hk. simpl. eexists. split; [reflexivity|].
    rewrite length_fmap. exact Hn. }
  repeat split.
  - unfold GroupCoherenceForce.get_force, state_rows. rewrite Hst. simpl.
    destruct (Hloop (fun forces group =>
                vectors ← GroupCoherenceForce.group_vectors group_center st group;
                iadd_rows forces group vectors)) as (F & HF & HFlen).
    { intros forces g Hg Hn.
      destruct (coherence_group_vectors_Ok st g Hg) as (vectors & Hv & Hvl).
      eapply iadd_body_Ok; eassumption. }
    rewrite HF. simpl. apply Hscale, HFlen.
  - unfold GroupCoherenceForceAlt.get_force, state_rows. rewrite Hst. simpl.
    destruct (Hloop (fun forces group =>
                vectors ← GroupCoherenceForceAlt.group_vectors group_center st group;
                iadd_rows forces group vectors)) as (F & HF & HFlen).
    { intros forces g Hg Hn.
      destruct (coherence_alt_group_vectors_Ok st g Hg) as (vectors & Hv & Hvl).
      eapply iadd_body_Ok; eassumption. }
    rewrite HF. simpl. apply Hscale, HFlen.
  - unfold GroupRepulsiveForce.get_force, state_rows, get_or. rewrite Hcfg, Hst. simpl.
    match goal with
    | |- context [for_each_group _ ?body _] =>
        destruct (Hloop body) as (F & HF & HFlen)
    end.
    { intros forces g Hg Hn. destruct (take_rows_Ok st g Hg) as [members Hm].
      rewrite Hm. simpl. apply repulsive_inner_Ok; [exact Hg | exact Hn |].
      intros m Hm'. unfold vec_diff in Hm'.
      apply list_elem_of_fmap in Hm' as (p & -> & _).
      rewrite !length_fmap. apply (take_rows_length _ _ _ Hm). }
    rewrite HF. simpl. apply Hscale, HFlen.
  - unfold GroupGazeForce.get_force, state_rows, get_or. rewrite Hst, Hcfg. simpl.
    match goal with
    | |- context [for_each_group _ ?body _] =>
        destruct (Hloop body) as (F & HF & HFlen)
    end.
    { intros forces g Hg Hn. destruct (Nat.leb (length g) 1).
      - exists forces. split; [reflexivity | exact Hn].
      - destruct (gaze_group_force_Ok
                    match cfg !! "fov_phi" with
                    | Some r => if Rnonzero r then r else 100
                    | None => 100
                    end f st e g He Hlen Hg) as (force & Hf & Hfl).
        eapply iadd_body_Ok; eassumption. }
    rewrite HF. simpl. apply Hscale, HFlen.
Qed.

End Returns.

(** The trio is well formed for each of the four variants. *)
Lemma group_variants_return_example :
  (exists F, GroupCoherenceForce.get_force group_center_mean (trio "group") = Ok F /\
             length F = 3%nat) /\
  (exists F, GroupCoherenceForceAlt.get_force group_center_mean (trio "group") = Ok F /\
             length F = 3%nat) /\
  (exists F, GroupRepulsiveForce.get_force (trio "group") = Ok F /\ length F = 3%nat) /\
  (exists F, GroupGazeForce.get_force group_center_mean (trio "group") = Ok F /\
             length F = 3%nat).
Proof.
  apply (group_variants_return group_center_mean (trio "group") three_agents
           (desired_directions three_agents) ∅ 1); try reflexivity.
  intros gs g i Hgs Hg Hi. injection Hgs as <-.
  apply list_elem_of_singleton in Hg as ->.
  apply list_elem_of_lookup in Hi as [k Hk]. apply lookup_lt_Some in Hk as Hlt.
  simpl in Hlt. destruct k as [|[|[|k]]]; simpl in Hk; try lia;
    injection Hk as <-; simpl; lia.
Defined.

(** ** The accumulated displacements in closed form *)

Lemma repulsive_inner_member (group : list nat) (ps qs : list vec)
    (forces forces' : list vec) (k i : nat) (pk a0 : vec) :
  foldM (fun forces m => iadd_rows forces group m)
        ((fun p => (fun q => vsub p q) <$> ps) <$> qs) forces = Ok forces' ->
  NoDup group -> group !! k = Some i -> ps !! k = Some pk -> forces !! i = Some a0 ->
  forces' !! i = Some (fold_left (fun acc p => vadd acc (vsub p pk)) qs a0).
Proof.
  intros H Hnd Hk Hpk. revert forces a0 H.
  induction qs as [|p qs IH]; intros forces a0 H Ha0; simpl in H.
  - injection H as <-. exact Ha0.
  - inv_bind H. simpl. apply (IH _ _ H).
    apply (iadd_rows_member _ _ _ _ k _ _ _ Hr Hnd Hk); [|exact Ha0].
    rewrite list_lookup_fmap, Hpk. reflexivity.
Qed.

Lemma sum_of_displacements (qs : list vec) (pk a0 : vec) :
  fold_left (fun acc p => vadd acc (vsub p pk)) qs a0 =
  vadd a0 (vsub (vsum qs) (vscale (INR (length qs)) pk)).
Proof.
  revert a0. induction qs as [|p qs IH]; intros a0.
  - destruct a0 as [x y]. unfold vadd, vsub, vscale, vsum; simpl. f_equal; lra.
  - cbn [fold_left]. rewrite IH. cbn [length]. rewrite S_INR.
    destruct a0 as [x y], p as [p1 p2], pk as [k1 k2].
    unfold vadd, vsub, vscale, vsum; simpl. f_equal; lra.
Qed.

(** In GroupRepulsiveForce, the row of an agent that belongs to exactly one
    group (listed once in it) is factor times the sum over the members of
    their position minus the agent's: the sum of the member positions minus
    group size times the agent's position, a vector that points from the
    agent toward the centroid of the group. *)
Theorem repulsive_closed_form (f : Force) (st members : list agent)
    (gs1 gs2 : list (list nat)) (group : list nat) (k i : nat) (a : agent)
    (cfg : gmap string R) (kf : R) (F : list vec) :
  state f = Some st -> groups f = Some (gs1 ++ group :: gs2) -> factor f = PNum kf ->
  config f = PDict cfg ->
  GroupRepulsiveForce.get_force f = Ok F ->
  take_rows st group = Ok members ->
  NoDup group -> (forall g, g ∈ gs1 ++ gs2 -> i ∉ g) ->
  group !! k = Some i -> st !! i = Some a ->
  F !! i =
    Some (vscale kf (vsub (vsum (pos <$> members))
                          (vscale (INR (length group)) (pos a)))).
Proof.
  intros Hst Hgs Hkf Hcfg H Hm Hnd Hi Hk Ha.
  unfold GroupRepulsiveForce.get_force, state_rows, get_or in H.
  rewrite Hcfg, Hst, Hgs, Hkf in H. simpl in H. inv_bind H. injection H as <-.
  destruct (isolated_member _ _ _ _ _ _ _ (frames_repulsive _ st) Hr Hi
              (lookup_lt_Some _ _ _ Ha)) as (mid & mid' & Hbody & Hmid & HF).
  rewrite Hm in Hbody. simpl in Hbody.
  destruct (take_rows_lookup _ _ _ _ _ Hm Hk) as (a' & Ha' & Hmk).
  rewrite Ha in Ha'. injection Ha' as <-.
  assert (Hrow : mid' !! i =
            Some (fold_left (fun acc p => vadd acc (vsub p (pos a))) (pos <$> members) vzero)).
  { apply (repulsive_inner_member group (pos <$> members) (pos <$> members) mid mid' k);
      [exact Hbody | exact Hnd | exact Hk | | exact Hmid].
    rewrite list_lookup_fmap, Hmk. reflexivity. }
  rewrite list_lookup_fmap, HF, Hrow. simpl. f_equal.
  rewrite sum_of_displacements, vadd_zero_l, length_fmap, (take_rows_length _ _ _ Hm).
  apply vtimes_vscale.
Qed.

(** In the pair at [(1, 0)] and [(-1, 0)], the first agent receives [(-2, 0)]:
    it is pushed toward the other member. *)
Lemma repulsive_closed_form_example :
  exists F, GroupRepulsiveForce.get_force (repulsive_with_threshold 0.1) = Ok F /\
    F !! 0%nat = Some (-2, 0).
Proof.
  eexists. split; [reflexivity|].
  match goal with
  | |- ?F !! _ = _ =>
      set (F0 := F);
      pose proof (repulsive_closed_form (repulsive_with_threshold 0.1) three_agents
                    [ {| pos := (1, 0); vel := (0, 0); goal := (5, 0); tau := 0.5 |};
                      {| pos := (-1, 0); vel := (0, 0); goal := (5, 0); tau := 0.5 |} ]
                    [] [] [0; 1]%nat 0 0
                    {| pos := (1, 0); vel := (0, 0); goal := (5, 0); tau := 0.5 |}
                    {[ "threshold" := 0.1 ]} 1 F0
                    eq_refl eq_refl eq_refl eq_refl eq_refl eq_refl NoDup_pair) as Hrow
  end.
  etransitivity; [apply Hrow|].
  - intros g Hg. apply elem_of_nil in Hg. contradiction.
  - reflexivity.
  - reflexivity.
  - f_equal. unfold vscale, vsub, vsum, vadd; simpl. f_equal; lra.
Defined.

(** * Further properties *)

(** ** [camel_to_snake] *)

Lemma is_upper_to_lower (c : ascii) : is_upper (to_lower c) = false.
Proof. destruct c as [[] [] [] [] [] [] [] []]; reflexivity. Qed.

Lemma to_lower_not_upper (c : ascii) : is_upper c = false -> to_lower c = c.
Proof. intros H. unfold to_lower. rewrite H. reflexivity. Qed.

Lemma to_lower_underscore (c : ascii) :
  Ascii.eqb (to_lower c) "_" = Ascii.eqb c "_".
Proof. destruct c as [[] [] [] [] [] [] [] []]; reflexivity. Qed.

Lemma has_upper_lower (s : string) : has_upper (lower s) = false.
Proof.
  induction s as [|c s IH]; simpl; [reflexivity|].
  rewrite is_upper_to_lower, IH. reflexivity.
Qed.

Lemma lower_fixed (s : string) : has_upper s = false -> lower s = s.
Proof.
  induction s as [|c s IH]; simpl; [reflexivity|].
  intros H. apply orb_false_iff in H as [Hc Hs].
  rewrite (to_lower_not_upper _ Hc), (IH Hs). reflexivity.
Qed.

Lemma underscore_before_upper_fixed (s : string) :
  has_upper s = false -> underscore_before_upper s = s.
Proof.
  induction s as [|c s IH]; simpl; [reflexivity|].
  intros H. apply orb_false_iff in H as [Hc Hs].
  rewrite Hc, (IH Hs). reflexivity.
Qed.

Lemma re_sub_fixed (s : string) : has_upper s = false -> re_sub s = s.
Proof.
  destruct s as [|c s]; simpl; [reflexivity|].
  intros H. apply orb_false_iff in H as [_ Hs].
  rewrite (underscore_before_upper_fixed _ Hs). reflexivity.
Qed.

(** A name has no upper-case letter left, and a string without upper-case
    letters, such as a name, is its own name: [camel_to_snake] is
    idempotent. *)
Theorem camel_to_snake_idempotent (s : string) :
  has_upper (camel_to_snake s) = false /\
  (has_upper s = false -> camel_to_snake s = s) /\
  camel_to_snake (camel_to_snake s) = camel_to_snake s.
Proof.
  assert (Hfix : forall t, has_upper t = false -> camel_to_snake t = t).
  { intros t Ht. unfold camel_to_snake. rewrite (re_sub_fixed _ Ht). apply lower_fixed, Ht. }
  split; [apply has_upper_lower|]. split; [apply Hfix|].
  apply Hfix, has_upper_lower.
Qed.

Lemma length_lower (s : string) : String.length (lower s) = String.length s.
Proof. induction s as [|c s IH]; simpl; [reflexivity|]. rewrite IH. reflexivity. Qed.

Lemma length_underscore_before_upper (s : string) :
  String.length (underscore_before_upper s) = (String.length s + count_upper s)%nat.
Proof.
  induction s as [|c s IH]; simpl; [reflexivity|].
  destruct (is_upper c); simpl; rewrite IH; lia.
Qed.

Lemma letters_lower (s : string) : letters (lower s) = lower (letters s).
Proof.
  induction s as [|c s IH]; simpl; [reflexivity|].
  rewrite to_lower_underscore. destruct (Ascii.eqb c "_"); simpl; rewrite IH; reflexivity.
Qed.

Lemma letters_underscore_before_upper (s : string) :
  letters (underscore_before_upper s) = letters s.
Proof.
  induction s as [|c s IH]; simpl; [reflexivity|].
  destruct (is_upper c) eqn:Hc; simpl; rewrite IH; reflexivity.
Qed.

(** [camel_to_snake] puts one underscore before each upper-case letter
    after the first character and none in front of the string; apart from
    underscores the name is the lower-cased class name, letter for letter. *)
Theorem camel_to_snake_shape (c : ascii) (s : string) :
  String.length (camel_to_snake (String c s)) = S (String.length s + count_upper s) /\
  (exists rest, camel_to_snake (String c s) = String (to_lower c) rest) /\
  letters (camel_to_snake (String c s)) = lower (letters (String c s)) /\
  camel_to_snake EmptyString = EmptyString.
Proof.
  unfold camel_to_snake. split; [|split; [|split]].
  - rewrite length_lower. simpl. rewrite length_underscore_before_upper. reflexivity.
  - simpl. eexists. reflexivity.
  - rewrite letters_lower. f_equal. simpl.
    rewrite letters_underscore_before_upper. reflexivity.
  - reflexivity.
Qed.

(** The names of the seven variants, pairwise distinct. *)
Lemma variant_names :
  camel_to_snake <$> variants =
  [ "goal_attractive_force"; "ped_repulsive_force"; "space_repulsive_force";
    "group_coherence_force"; "group_coherence_force_alt"; "group_repulsive_force";
    "group_gaze_force" ]%string /\
  NoDup (camel_to_snake <$> variants).
Proof. split; [reflexivity|]. apply (bool_decide_unpack _). reflexivity. Qed.

(** ** [load_config], [set_state] and the order of the calls *)

(** Loading the same configuration a second time changes nothing. *)
Theorem load_config_idempotent (f f' : Force) (config_dict : gmap string pyval) :
  load_config f config_dict = Ok f' -> load_config f' config_dict = Ok f'.
Proof.
  unfold load_config. destruct (truthy (dict_get config_dict (name f))) eqn:Ht.
  - destruct (config_get (dict_get config_dict (name f)) "factor") as [fac|e] eqn:Hfac;
      simpl; [|discriminate].
    intros H. injection H as <-. simpl. rewrite Ht, Hfac. reflexivity.
  - intros H. injection H as <-. simpl. rewrite Ht. reflexivity.
Qed.

Lemma load_config_idempotent_example :
  exists f', load_config (new "GoalAttractiveForce") config_both_time_steps = Ok f' /\
    load_config f' config_both_time_steps = Ok f' /\ factor f' = PNum 2.
Proof.
  eexists. split; [reflexivity|]. split; [|reflexivity].
  apply (load_config_idempotent (new "GoalAttractiveForce")). reflexivity.
Defined.

(** [load_config] and [set_state] write different attributes: the two calls
    can be made in either order, also when [load_config] raises. *)
Theorem load_config_set_state_commute (f : Force) (config_dict : gmap string pyval)
    (st : list agent) (g : option (list (list nat))) (sp : option Space)
    (v : option (list R)) :
  load_config (set_state f st g sp v) config_dict =
  match load_config f config_dict with
  | Ok f' => Ok (set_state f' st g sp v)
  | Raise e => Raise e
  end.
Proof.
  unfold load_config. simpl name.
  destruct (truthy (dict_get config_dict (name f))); [|reflexivity].
  destruct (config_get (dict_get config_dict (name f)) "factor"); reflexivity.
Qed.

Section CallOrder.

Variable grad_r_ab :
  pyval -> pyval -> pyval -> option (list agent) -> result (list (list vec)).
Variable fov :
  pyval -> pyval -> option (list vec) -> list (list vec) -> result (list (list R)).
Variable grad_r_aB :
  Space -> pyval -> pyval -> option (list agent) -> result (list (list vec)).
Variable group_center : list vec -> vec.

(** A configuration without a section for the force leaves [None] in
    [self.config].  From then on the variants that read their configuration
    raise [AttributeError] whatever state they are given: PedRepulsiveForce,
    GroupRepulsiveForce, GroupGazeForce, and SpaceRepulsiveForce when there is
    a space.  The others return what they returned without the call. *)
Theorem missing_section (f : Force) (config_dict : gmap string pyval)
    (st : list agent) (g : option (list (list nat))) (sp : option Space)
    (v : option (list R)) :
  config_dict !! name f = None ->
  exists f', load_config f config_dict = Ok f' /\ config f' = PNone /\
    PedRepulsiveForce.get_force grad_r_ab fov (set_state f' st g sp v)
      = Raise AttributeError /\
    GroupRepulsiveForce.get_force (set_state f' st g sp v) = Raise AttributeError /\
    GroupGazeForce.get_force group_center (set_state f' st g sp v)
      = Raise AttributeError /\
    (sp <> None ->
       SpaceRepulsiveForce.get_force grad_r_aB (set_state f' st g sp v)
         = Raise AttributeError) /\
    (sp = None ->
       SpaceRepulsiveForce.get_force grad_r_aB (set_state f' st g sp v)
         = SpaceRepulsiveForce.get_force grad_r_aB (set_state f st g sp v)) /\
    GoalAttractiveForce.get_force (set_state f' st g sp v)
      = GoalAttractiveForce.get_force (set_state f st g sp v) /\
    GroupCoherenceForce.get_force group_center (set_state f' st g sp v)
      = GroupCoherenceForce.get_force group_center (set_state f st g sp v) /\
    GroupCoherenceForceAlt.get_force group_center (set_state f' st g sp v)
      = GroupCoherenceForceAlt.get_force group_center (set_state f st g sp v).
Proof.
  intros Hnone. unfold load_config, dict_get. rewrite Hnone. simpl.
  eexists. split; [reflexivity|]. simpl. split; [reflexivity|].
  repeat split.
  - intros Hsp. destruct sp as [space'|]; [reflexivity | contradiction].
  - intros ->. reflexivity.
Qed.

(** [get_force] before any [set_state]: GoalAttractiveForce raises
    [TypeError], the four group variants raise [AttributeError], and so does
    SpaceRepulsiveForce when it has no space. *)
Theorem get_force_needs_state (f : Force) :
  state f = None ->
  GoalAttractiveForce.get_force f = Raise TypeError /\
  GroupCoherenceForce.get_force group_center f = Raise AttributeError /\
  GroupCoherenceForceAlt.get_force group_center f = Raise AttributeError /\
  GroupRepulsiveForce.get_force f = Raise AttributeError /\
  GroupGazeForce.get_force group_center f = Raise AttributeError /\
  (space f = None -> SpaceRepulsiveForce.get_force grad_r_aB f = Raise AttributeError).
Proof.
  intros Hst.
  unfold GoalAttractiveForce.get_force, GroupCoherenceForce.get_force,
    GroupCoherenceForceAlt.get_force, GroupRepulsiveForce.get_force,
    GroupGazeForce.get_force, SpaceRepulsiveForce.get_force,
    SpaceRepulsiveForce.obstacle_forces, state_rows, get_or.
  rewrite Hst. simpl. repeat split.
  - destruct (config f); reflexivity.
  - intros ->. reflexivity.
Qed.

End CallOrder.

Lemma missing_section_example :
  exists f', load_config (new "GroupGazeForce") config_both_time_steps = Ok f' /\
    GroupGazeForce.get_force group_center_mean (set_state f' three_agents None None None)
      = Raise AttributeError.
Proof.
  destruct (missing_section (fun _ _ _ _ => Raise ValueError)
              (fun _ _ _ _ => Raise ValueError) (fun _ _ _ _ => Raise ValueError)
              group_center_mean (new "GroupGazeForce") config_both_time_steps
              three_agents None None None) as (f' & Hf & _ & _ & _ & Hgaze & _).
  - reflexivity.
  - exists f'. split; [exact Hf | exact Hgaze].
Defined.

Lemma get_force_needs_state_example :
  GoalAttractiveForce.get_force (new "GoalAttractiveForce") = Raise TypeError /\
  GroupGazeForce.get_force group_center_mean (new "GoalAttractiveForce")
    = Raise AttributeError.
Proof.
  destruct (get_force_needs_state (fun _ _ _ _ => Raise ValueError) group_center_mean
              (new "GoalAttractiveForce") eq_refl) as (Hgoal & _ & _ & _ & Hgaze & _).
  split; [exact Hgoal | exact Hgaze].
Defined.

(** ** Row numbers past the end of the state *)

Lemma take_rows_out_of_range {A : Type} (arr : list A) (group : list nat) :
  Exists (fun i => (length arr <= i)%nat) group -> take_rows arr group = Raise IndexError.
Proof.
  induction group as [|i group IH]; intros H; [inversion H|]. simpl.
  destruct (arr !! i) as [r|] eqn:Hi; [|reflexivity].
  apply Exists_cons in H as [H|H].
  - apply lookup_lt_Some in Hi. lia.
  - rewrite (IH H). reflexivity.
Qed.

Lemma in_range_or_not (n : nat) (group : list nat) :
  Forall (fun i => (i < n)%nat) group \/ Exists (fun i => (n <= i)%nat) group.
Proof.
  induction group as [|i group [IH|IH]].
  - left. constructor.
  - destruct (Nat.lt_ge_cases i n) as [Hlt|Hge].
    + left. constructor; assumption.
    + right. apply Exists_cons_hd, Hge.
  - right. apply Exists_cons_tl, IH.
Qed.

(** A loop whose body raises [IndexError] on the groups that are [bad] and
    returns on the others raises [IndexError] as soon as one group is bad. *)
Lemma foldM_IndexError (body : list vec -> list nat -> result (list vec))
    (bad : list nat -> Prop) (gs : list (list nat)) (forces : list vec) (n : nat) :
  (forall g, bad g \/ ~ bad g) ->
  (forall forces g, bad g -> body forces g = Raise IndexError) ->
  (forall forces g, ~ bad g -> length forces = n ->
     exists forces', body forces g = Ok forces' /\ length forces' = n) ->
  length forces = n -> Exists bad gs ->
  foldM body gs forces = Raise IndexError.
Proof.
  intros Hdec Hbad Hgood. revert forces.
  induction gs as [|g gs IH]; intros forces Hn Hex; [inversion Hex|]. simpl.
  destruct (Hdec g) as [Hg|Hg].
  - rewrite (Hbad forces g Hg). reflexivity.
  - destruct (Hgood forces g Hg Hn) as (forces' & Hbody & Hn').
    rewrite Hbody. simpl. apply IH; [exact Hn'|].
    apply Exists_cons in Hex as [Hex|Hex]; [contradiction | exact Hex].
Qed.

(** A loop over groups that are all skipped returns what it started with. *)
Lemma foldM_skipped (other : list vec -> list nat -> result (list vec))
    (gs : list (list nat)) (forces : list vec) :
  Forall (fun g => (length g <= 1)%nat) gs ->
  foldM (fun forces group =>
           if Nat.leb (length group) 1 then Ok forces else other forces group)
        gs forces = Ok forces.
Proof.
  induction 1 as [|g gs' Hg _ IH]; [reflexivity|].
  simpl. apply Nat.leb_le in Hg. rewrite Hg. simpl. exact IH.
Qed.

Section OutOfRange.

Variable group_center : list vec -> vec.

(** A group that holds a row number past the end of the state makes
    GroupCoherenceForce, GroupCoherenceForceAlt and GroupRepulsiveForce raise
    [IndexError], wherever the group stands in the list; GroupGazeForce
    raises it when that group has more than one member. *)
Theorem group_index_out_of_range (f : Force) (st : list agent)
    (gs : list (list nat)) (g : list nat) (i : nat) :
  state f = Some st -> groups f = Some gs ->
  g ∈ gs -> i ∈ g -> (length st <= i)%nat ->
  GroupCoherenceForce.get_force group_center f = Raise IndexError /\
  GroupCoherenceForceAlt.get_force group_center f = Raise IndexError /\
  (forall cfg, config f = PDict cfg ->
     GroupRepulsiveForce.get_force f = Raise IndexError) /\
  (forall cfg e, config f = PDict cfg -> goal_vector f = Some e ->
     length e = length st -> (1 < length g)%nat ->
     GroupGazeForce.get_force group_center f = Raise IndexError).
Proof.
  intros Hst Hgs Hg Hi Hle.
  assert (Hoob : Exists (fun j => (length st <= j)%nat) g).
  { apply Exists_exists. exists i. split; [exact Hi | exact Hle]. }
  assert (Hex : Exists (fun g => Exists (fun j => (length st <= j)%nat) g) gs).
  { apply Exists_exists. exists g. split; [exact Hg | exact Hoob]. }
  assert (Hdec : forall g0 : list nat,
            Exists (fun j => (length st <= j)%nat) g0 \/
            ~ Exists (fun j => (length st <= j)%nat) g0).
  { intros g0. destruct (in_range_or_not (length st) g0) as [Hin|Hout]; [right | left; exact Hout].
    intros Hout. apply Exists_exists in Hout as (j & Hj & Hlen).
    rewrite Forall_forall in Hin. specialize (Hin j Hj). lia. }
  assert (Hin : forall g0 : list nat, ~ Exists (fun j => (length st <= j)%nat) g0 ->
            forall j, j ∈ g0 -> (j < length st)%nat).
  { intros g0 Hn j Hj. destruct (Nat.lt_ge_cases j (length st)) as [Hlt|Hge]; [exact Hlt|].
    exfalso. apply Hn. apply Exists_exists. exists j. split; assumption. }
  split; [|split; [|split]].
  - unfold GroupCoherenceForce.get_force, state_rows. rewrite Hst, Hgs. simpl.
    rewrite (foldM_IndexError _ _ _ _ (length st) Hdec); [reflexivity| | |apply length_replicate|exact Hex].
    + intros forces g0 Hbad. unfold GroupCoherenceForce.group_vectors.
      rewrite (take_rows_out_of_range _ _ Hbad). reflexivity.
    + intros forces g0 Hgood Hn.
      destruct (coherence_group_vectors_Ok group_center st g0 (Hin g0 Hgood))
        as (vectors & Hv & Hvl).
      apply (iadd_body_Ok _ _ _ _ _ Hv Hvl (Hin g0 Hgood) Hn).
  - unfold GroupCoherenceForceAlt.get_force, state_rows. rewrite Hst, Hgs. simpl.
    rewrite (foldM_IndexError _ _ _ _ (length st) Hdec); [reflexivity| | |apply length_replicate|exact Hex].
    + intros forces g0 Hbad. unfold GroupCoherenceForceAlt.group_vectors.
      rewrite (take_rows_out_of_range _ _ Hbad). reflexivity.
    + intros forces g0 Hgood Hn.
      destruct (coherence_alt_group_vectors_Ok group_center st g0 (Hin g0 Hgood))
        as (vectors & Hv & Hvl).
      apply (iadd_body_Ok _ _ _ _ _ Hv Hvl (Hin g0 Hgood) Hn).
  - intros cfg Hcfg.
    unfold GroupRepulsiveForce.get_force, state_rows, get_or. rewrite Hcfg, Hst, Hgs. simpl.
    rewrite (foldM_IndexError _ _ _ _ (length st) Hdec); [reflexivity| | |apply length_replicate|exact Hex].
    + intros forces g0 Hbad. rewrite (take_rows_out_of_range _ _ Hbad). reflexivity.
    + intros forces g0 Hgood Hn.
      destruct (take_rows_Ok st g0 (Hin g0 Hgood)) as [members Hm]. rewrite Hm. simpl.
      apply repulsive_inner_Ok; [apply (Hin g0 Hgood) | exact Hn |].
      intros m Hm'. unfold vec_diff in Hm'.
      apply list_elem_of_fmap in Hm' as (p & -> & _).
      rewrite !length_fmap. apply (take_rows_length _ _ _ Hm).
  - intros cfg e Hcfg He Hlen Hsize.
    unfold GroupGazeForce.get_force, state_rows, get_or. rewrite Hst, Hcfg, Hgs. simpl.
    rewrite (foldM_IndexError _
               (fun g0 => (1 < length g0)%nat /\
                          Exists (fun j => (length st <= j)%nat) g0)
               _ _ (length st)); [reflexivity| | | |apply length_replicate|].
    + intros g0. destruct (Nat.lt_ge_cases 1 (length g0)) as [Hlt|Hge];
        [|right; intros [Hlt _]; lia].
      destruct (Hdec g0) as [Hb|Hb]; [left; split; assumption|].
      right. intros [_ Hb']. contradiction.
    + intros forces g0 [Hlt Hbad].
      destruct (Nat.leb (length g0) 1) eqn:Hleb; [apply Nat.leb_le in Hleb; lia|].
      unfold GroupGazeForce.group_force.
      rewrite (take_rows_out_of_range _ _ Hbad). reflexivity.
    + intros forces g0 Hgood Hn.
      destruct (Nat.leb (length g0) 1) eqn:Hleb.
      * exists forces. split; [reflexivity | exact Hn].
      * apply Nat.leb_gt in Hleb.
        assert (Hr : ~ Exists (fun j => (length st <= j)%nat) g0).
        { intros Hb. apply Hgood. split; assumption. }
        destruct (gaze_group_force_Ok group_center
                    match cfg !! "fov_phi" with
                    | Some r => if Rnonzero r then r else 100
                    | None => 100
                    end f st e g0 He Hlen (Hin g0 Hr)) as (force & Hf & Hfl).
        apply (iadd_body_Ok _ _ _ _ _ Hf Hfl (Hin g0 Hr) Hn).
    + apply Exists_exists. exists g. split; [exact Hg|]. split; [exact Hsize | exact Hoob].
Qed.

(** GroupGazeForce never indexes the state for a group of at most one
    member: when every group is that small it returns the zero matrix,
    whatever row numbers the groups hold. *)
Theorem gaze_small_groups_unchecked (f : Force) (st : list agent)
    (gs : list (list nat)) (cfg : gmap string R) (k : R) :
  state f = Some st -> groups f = Some gs -> config f = PDict cfg -> factor f = PNum k ->
  Forall (fun g => (length g <= 1)%nat) gs ->
  GroupGazeForce.get_force group_center f = Ok (zeros (length st)).
Proof.
  intros Hst Hgs Hcfg Hk Hsmall.
  unfold GroupGazeForce.get_force, state_rows, get_or. rewrite Hst, Hcfg, Hgs, Hk. simpl.
  rewrite (foldM_skipped _ _ _ Hsmall).
  simpl. f_equal. unfold zeros.
  rewrite fmap_replicate, vtimes_zero. reflexivity.
Qed.

End OutOfRange.

(** Three agents and the group [[0; 7]]. *)
Lemma group_index_out_of_range_example :
  GroupCoherenceForce.get_force group_center_mean
    (set_state (new "GroupCoherenceForce") three_agents (Some [[0; 7]%nat]) None None)
  = Raise IndexError.
Proof.
  apply (group_index_out_of_range group_center_mean
           (set_state (new "GroupCoherenceForce") three_agents (Some [[0; 7]%nat]) None None)
           three_agents [[0; 7]%nat] [0; 7]%nat 7 eq_refl eq_refl).
  - apply list_elem_of_singleton. reflexivity.
  - right. left.
  - simpl. lia.
Defined.

(** Three agents and the group [[7]]: no exception, no force. *)
Lemma gaze_small_groups_unchecked_example :
  GroupGazeForce.get_force group_center_mean
    (set_state (new "GroupGazeForce") three_agents (Some [[7]%nat]) None None)
  = Ok [vzero; vzero; vzero].
Proof.
  apply (gaze_small_groups_unchecked group_center_mean
           (set_state (new "GroupGazeForce") three_agents (Some [[7]%nat]) None None)
           three_agents [[7]%nat] ∅ 1 eq_refl eq_refl eq_refl eq_refl).
  repeat constructor.
Defined.

(** ** GoalAttractiveForce: shapes and equilibrium *)

Lemma broadcast_mismatch {A B C : Type} (op : A -> B -> C) (xs : list A) (ys : list B) :
  length xs <> length ys -> length xs <> 1%nat -> length ys <> 1%nat ->
  broadcast op xs ys = Raise ValueError.
Proof.
  intros Hne Hx Hy. unfold broadcast.
  destruct (Nat.eqb (length xs) (length ys)) eqn:Heq; [apply Nat.eqb_eq in Heq; contradiction|].
  destruct xs as [|x [|x' xs]]; destruct ys as [|y [|y' ys]]; simpl in *;
    try reflexivity; contradiction.
Qed.

Lemma broadcast_singleton_l {A B C : Type} (op : A -> B -> C) (x : A) (ys : list B) :
  broadcast op [x] ys = Ok (op x <$> ys).
Proof.
  unfold broadcast. destruct (Nat.eqb (length [x]) (length ys)) eqn:Heq; [|reflexivity].
  apply Nat.eqb_eq in Heq. destruct ys as [|y [|y' ys]]; try discriminate. reflexivity.
Qed.

(** GoalAttractiveForce on a stored state raises [TypeError] when no speeds
    have ever been given (the direction cache not being an empty array), and
    [ValueError] when the speeds and the direction cache have different
    lengths, neither of them 1. *)
Theorem goal_attractive_errors (f : Force) (st : list agent) :
  state f = Some st ->
  (initial_speeds f = None -> goal_vector f <> Some [] ->
   GoalAttractiveForce.get_force f = Raise TypeError) /\
  (forall v0 e, initial_speeds f = Some v0 -> goal_vector f = Some e ->
     length v0 <> length e -> length v0 <> 1%nat -> length e <> 1%nat ->
     GoalAttractiveForce.get_force f = Raise ValueError).
Proof.
  intros Hst. unfold GoalAttractiveForce.get_force. rewrite Hst. simpl. split.
  - intros -> _. reflexivity.
  - intros v0 e -> -> Hne H0 He. simpl.
    rewrite (broadcast_mismatch _ _ _ Hne H0 He). reflexivity.
Qed.

(** A fresh force whose first [set_state] comes without speeds, and one that
    is given three speeds for two agents. *)
Lemma goal_attractive_errors_example :
  GoalAttractiveForce.get_force
    (set_state (new "GoalAttractiveForce") two_agents None None None) = Raise TypeError /\
  GoalAttractiveForce.get_force
    (set_state (new "GoalAttractiveForce") two_agents None None (Some [1; 1; 1]))
    = Raise ValueError.
Proof.
  split.
  - apply (goal_attractive_errors
             (set_state (new "GoalAttractiveForce") two_agents None None None)
             two_agents eq_refl); [reflexivity | discriminate].
  - apply (proj2 (goal_attractive_errors
             (set_state (new "GoalAttractiveForce") two_agents None None (Some [1; 1; 1]))
             two_agents eq_refl) [1; 1; 1] (desired_directions two_agents));
      simpl; (reflexivity || lia).
Defined.

(** A speed vector with a single entry is broadcast: every agent is driven
    toward that one speed. *)
Theorem goal_attractive_single_speed (f : Force) (st : list agent) (s : R)
    (e : list vec) (k : R) :
  state f = Some st -> initial_speeds f = Some [s] -> goal_vector f = Some e ->
  factor f = PNum k -> length e = length st ->
  exists F, GoalAttractiveForce.get_force f = Ok F /\ length F = length st /\
    forall i a d, st !! i = Some a -> e !! i = Some d ->
      F !! i = Some (vtimes (vscale (1 / tau a) (vsub (vscale s d) (vel a))) k).
Proof.
  intros Hst Hv0 He Hk Hle.
  unfold GoalAttractiveForce.get_force. rewrite Hst, Hv0, He, Hk. simpl.
  rewrite broadcast_singleton_l. simpl.
  rewrite broadcast_same_length by (rewrite !length_fmap; exact Hle). simpl.
  rewrite broadcast_same_length
    by (rewrite length_zip_with, !length_fmap, Hle, Nat.min_id; reflexivity).
  simpl. eexists. split; [reflexivity|]. split.
  - rewrite length_fmap, !length_zip_with, !length_fmap, Hle, !Nat.min_id. reflexivity.
  - intros i a d Ha Hd.
    rewrite list_lookup_fmap, !lookup_zip_with, !list_lookup_fmap, Ha, Hd. reflexivity.
Qed.

Lemma goal_attractive_single_speed_example :
  exists F, GoalAttractiveForce.get_force
              (set_state (new "GoalAttractiveForce") two_agents None None (Some [3]))
            = Ok F /\ length F = 2%nat.
Proof.
  destruct (goal_attractive_single_speed
              (set_state (new "GoalAttractiveForce") two_agents None None (Some [3]))
              two_agents 3 (desired_directions two_agents) 1)
    as (F & HF & Hlen & _); try reflexivity.
  exists F. split; [exact HF | exact Hlen].
Defined.

(** An agent with a relaxation time other than zero that already moves at
    its desired speed along its desired direction receives no force. *)
Theorem goal_attractive_equilibrium (f : Force) (st : list agent) (v0 : list R)
    (e : list vec) (k : R) :
  state f = Some st -> initial_speeds f = Some v0 -> goal_vector f = Some e ->
  factor f = PNum k -> length v0 = length st -> length e = length st ->
  exists F, GoalAttractiveForce.get_force f = Ok F /\
    forall i a s d, st !! i = Some a -> v0 !! i = Some s -> e !! i = Some d ->
      tau a <> 0 -> vel a = vscale s d -> F !! i = Some vzero.
Proof.
  intros Hst Hv0 He Hk Hlv Hle.
  destruct (goal_attractive_matrix f st v0 e k Hst Hv0 He Hk Hlv Hle)
    as (F & HF & _ & Hrows).
  exists F. split; [exact HF|].
  intros i a s d Ha Hs Hd _ Hvel. rewrite (Hrows i a s d Ha Hs Hd), Hvel.
  f_equal. unfold vtimes, vscale, vsub, vzero; simpl. f_equal; ring.
Qed.

(** One agent walking at speed 2 along the x axis toward its goal. *)
Lemma goal_attractive_equilibrium_example :
  exists F, GoalAttractiveForce.get_force
              (set_state (new "GoalAttractiveForce")
                 [ {| pos := (0, 0); vel := (2, 0); goal := (4, 0); tau := 0.5 |} ]
                 None None (Some [2])) = Ok F /\
    F !! 0%nat = Some vzero.
Proof.
  destruct (goal_attractive_equilibrium
              (set_state (new "GoalAttractiveForce")
                 [ {| pos := (0, 0); vel := (2, 0); goal := (4, 0); tau := 0.5 |} ]
                 None None (Some [2]))
              [ {| pos := (0, 0); vel := (2, 0); goal := (4, 0); tau := 0.5 |} ]
              [2]
              (desired_directions
                 [ {| pos := (0, 0); vel := (2, 0); goal := (4, 0); tau := 0.5 |} ])
              1) as (F & HF & Hrow); try reflexivity.
  exists F. split; [exact HF|].
  apply (Hrow 0%nat _ 2 _ eq_refl eq_refl eq_refl).
  - simpl. lra.
  - simpl. rewrite (unit_vector_eq _ 4) by (unfold vsub; simpl; lra).
    unfold vscale, vsub; simpl. f_equal; lra.
Defined.

(** ** How large the group forces can be *)

Lemma norm_vscale (k : R) (v : vec) : norm (vscale k v) = Rabs k * norm v.
Proof.
  apply norm_eq.
  - apply Rmult_le_pos; [apply Rabs_pos | apply norm_nonneg].
  - unfold vscale; simpl.
    replace (Rabs k * norm v * (Rabs k * norm v))
      with ((Rabs k * Rabs k) * (norm v * norm v)) by ring.
    rewrite norm_sq, <- Rabs_mult, Rabs_right by nra. ring.
Qed.

Lemma norm_vzero : norm vzero = 0.
Proof. apply norm_zero_iff. reflexivity. Qed.

(** Groups that share no row number and repeat none: each member belongs to
    one group, once. *)
Lemma disjoint_split (gs : list (list nat)) (g : list nat) (i : nat) :
  NoDup (mjoin gs) -> g ∈ gs -> i ∈ g ->
  exists gs1 gs2, gs = gs1 ++ g :: gs2 /\ NoDup g /\
    forall g', g' ∈ gs1 ++ gs2 -> i ∉ g'.
Proof.
  intros Hnd Hg Hi. apply list_elem_of_split in Hg as (gs1 & gs2 & ->).
  exists gs1, gs2. split; [reflexivity|].
  rewrite join_app in Hnd. simpl in Hnd.
  apply NoDup_app in Hnd as (_ & Hdis1 & Hnd).
  apply NoDup_app in Hnd as (Hg & Hdis2 & _).
  split; [exact Hg|].
  intros g' Hg' Hi'. apply elem_of_app in Hg' as [Hg'|Hg'].
  - apply (Hdis1 i).
    + apply list_elem_of_join. exists g'. split; assumption.
    + apply elem_of_app. left. exact Hi.
  - apply (Hdis2 i Hi). apply list_elem_of_join. exists g'. split; assumption.
Qed.

Section Magnitude.

Variable group_center : list vec -> vec.

(** With groups that share no row number and repeat none, no row of the
    matrix GroupCoherenceForce returns is longer than the absolute value of
    the factor. *)
Theorem coherence_bounded (f : Force) (st : list agent) (gs : list (list nat))
    (kf : R) (F : list vec) :
  state f = Some st -> groups f = Some gs -> factor f = PNum kf ->
  NoDup (mjoin gs) ->
  GroupCoherenceForce.get_force group_center f = Ok F ->
  forall i v, F !! i = Some v -> norm v <= Rabs kf.
Proof.
  intros Hst Hgs Hkf Hnd H i v Hv.
  pose proof H as H0.
  unfold GroupCoherenceForce.get_force, state_rows in H0. rewrite Hst, Hgs, Hkf in H0.
  simpl in H0. inv_bind H0. injection H0 as <-.
  destruct (for_each_group_frames _ (Some gs) _ _ (frames_iadd _) Hr) as [Hlen Hfr].
  assert (Hi : (i < length st)%nat).
  { apply lookup_lt_Some in Hv. rewrite length_fmap, Hlen in Hv.
    unfold zeros in Hv. rewrite length_replicate in Hv. exact Hv. }
  destruct (decide (i ∈ mjoin gs)) as [Hin|Hout].
  - apply list_elem_of_join in Hin as (g & Hig & Hg).
    destruct (disjoint_split gs g i Hnd Hg Hig) as (gs1 & gs2 & -> & Hndg & Hex).
    apply list_elem_of_lookup in Hig as [k Hk].
    destruct (lookup_lt_is_Some_2 st i Hi) as [a Ha].
    simpl in Hr. destruct (foldM_ran _ _ _ _ _ _ Hr) as (mid & mid' & Hbody).
    inv_bind Hbody. unfold GroupCoherenceForce.group_vectors in Hr0.
    destruct (take_rows st g) as [members|err] eqn:Hm; [|discriminate].
    pose proof (coherence_row group_center f st members gs1 gs2 g k i a kf _
                  Hst Hgs Hkf H Hm Hndg Hex Hk Ha) as Hrow.
    cbv zeta in Hrow. rewrite Hrow in Hv. injection Hv as <-.
    rewrite norm_vscale.
    rewrite <- (Rmult_1_r (Rabs kf)) at 2.
    apply Rmult_le_compat_l; [apply Rabs_pos|].
    destruct (Rlt_dec _ _); [rewrite norm_vzero; lra | apply unit_vector_norm_le].
  - rewrite list_lookup_fmap, Hfr, zeros_lookup in Hv by
      (exact Hi || (intros gs' g' Hgs' Hg' Hig; injection Hgs' as <-;
                    apply Hout, list_elem_of_join; exists g'; split; assumption)).
    simpl in Hv. injection Hv as <-. rewrite vtimes_zero, norm_vzero. apply Rabs_pos.
Qed.

(** GroupCoherenceForceAlt never overshoots: what it adds for a member is a
    positive fraction of the displacement toward the centroid, strictly
    shorter than the displacement unless the member sits on the centroid. *)
Theorem coherence_alt_never_overshoots (st members : list agent) (group : list nat)
    (vectors : list vec) (k i : nat) (a : agent) :
  GroupCoherenceForceAlt.group_vectors group_center st group = Ok vectors ->
  take_rows st group = Ok members ->
  group !! k = Some i -> st !! i = Some a ->
  let d := vsub (group_center (pos <$> members)) (pos a) in
  exists c g, vectors !! k = Some c /\ c = vscale g d /\ 0 < g < 1 /\
    norm c <= norm d /\ (d <> vzero -> norm c < norm d).
Proof.
  intros Hv Hm Hk Ha d.
  pose proof (coherence_alt_group_vectors_lookup _ _ _ _ _ _ _ _ Hv Hm Hk Ha) as Hrow.
  cbv zeta in Hrow. fold d in Hrow. rewrite vtimes_vscale in Hrow.
  eexists. eexists. split; [exact Hrow|]. split; [reflexivity|].
  match goal with |- 0 < ?g < 1 /\ _ => assert (Hg : 0 < g < 1) by apply softened_factor_bounds end.
  split; [exact Hg|]. rewrite norm_vscale, Rabs_right by lra.
  pose proof (norm_nonneg d) as Hd. split; [nra|].
  intros Hne. assert (norm d <> 0) by (intros H0; apply Hne, norm_zero_iff, H0). nra.
Qed.

End Magnitude.

Lemma coherence_bounded_example :
  exists F, GroupCoherenceForce.get_force group_center_mean
              (trio "group_coherence_force") = Ok F /\
    forall i v, F !! i = Some v -> norm v <= Rabs 1.
Proof.
  eexists. split; [reflexivity|].
  apply (coherence_bounded group_center_mean (trio "group_coherence_force")
           three_agents [[0; 1; 2]%nat] 1); try reflexivity.
  simpl. apply NoDup_trio.
Defined.

Lemma coherence_alt_never_overshoots_example :
  exists vectors c,
    GroupCoherenceForceAlt.group_vectors group_center_mean three_agents [0; 1; 2]%nat
      = Ok vectors /\
    vectors !! 0%nat = Some c /\
    norm c < norm (vsub (group_center_mean (pos <$> three_agents)) (1, 0)).
Proof.
  eexists. 
  destruct (coherence_alt_never_overshoots group_center_mean three_agents three_agents
              [0; 1; 2]%nat _ 0 0
              {| pos := (1, 0); vel := (0, 0); goal := (5, 0); tau := 0.5 |}
              eq_refl eq_refl eq_refl eq_refl) as (c & g & Hc & _ & _ & _ & Hlt).
  exists c. split; [reflexivity|]. split; [exact Hc|].
  apply Hlt. simpl pos. rewrite trio_displacement. unfold vzero.
  intros H. injection H as H. lra.
Defined.

(** ** GroupGazeForce and the vision angle *)

Lemma iadd_rows_zero (arr : list vec) (group : list nat) (vals arr' : list vec) :
  iadd_rows arr group vals = Ok arr' -> Forall (fun v => v = vzero) vals -> arr' = arr.
Proof.
  intros H Hz. apply iadd_rows_inv in H as (rows & Hrows & _ & ->).
  revert rows vals Hrows Hz. induction group as [|i group IH]; intros rows vals Hrows Hz.
  - reflexivity.
  - simpl in Hrows. destruct (arr !! i) as [r|] eqn:Hi; [|discriminate].
    inv_bind Hrows. injection Hrows as <-.
    destruct Hz as [|v vals Hv Hz]; [reflexivity|]. simpl. subst v.
    replace (vadd r vzero) with r
      by (destruct r; unfold vadd, vzero; simpl; f_equal; lra).
    rewrite (list_insert_id _ _ _ Hi). apply (IH _ _ Hr0 Hz).
Qed.

Lemma foldM_unchanged {A : Type} (body : list vec -> A -> result (list vec))
    (xs : list A) (forces F : list vec) :
  (forall forces x forces', body forces x = Ok forces' -> forces' = forces) ->
  foldM body xs forces = Ok F -> F = forces.
Proof.
  intros Hb. revert forces. induction xs as [|x xs IH]; intros forces H; simpl in H.
  - injection H as <-. reflexivity.
  - inv_bind H. rewrite (IH _ H). apply (Hb _ _ _ Hr).
Qed.

(** The angle the source computes, when it is a number, lies between 0 and
    180 degrees. *)
Lemma com_angle_range (d c : vec) (a : R) :
  GroupGazeForce.com_angle d c = Some a -> 0 <= a <= 180.
Proof.
  unfold GroupGazeForce.com_angle, GroupGazeForce.arccos.
  destruct (Rle_dec (-1) (dot d c)); [|discriminate].
  destruct (Rle_dec (dot d c) 1); [|discriminate].
  simpl. intros H. injection H as <-.
  pose proof (acos_bound (dot d c)) as [Hlo Hhi]. pose proof PI_RGT_0 as Hpi.
  unfold GroupGazeForce.degrees.
  assert (Hq : 0 < 180 / PI) by (apply Rdiv_lt_0_compat; lra).
  split; [apply Rmult_le_pos; lra|].
  replace 180 with (PI * (180 / PI)) at 2 by (field; lra).
  apply Rmult_le_compat_r; lra.
Qed.

Lemma excess_wide (va : R) (d c : vec) :
  180 <= va -> GroupGazeForce.excess va (GroupGazeForce.com_angle d c) = 0.
Proof.
  intros Hva. destruct (GroupGazeForce.com_angle d c) as [a|] eqn:Ha; [|reflexivity].
  apply com_angle_range in Ha. simpl. destruct (Rgt_dec a va); [lra | reflexivity].
Qed.

Section Vision.

Variable group_center : list vec -> vec.

Lemma gaze_group_force_wide (va : R) (f : Force) (st : list agent) (group : list nat)
    (force : list vec) :
  180 <= va ->
  GroupGazeForce.group_force group_center va f st group = Ok force ->
  Forall (fun v => v = vzero) force.
Proof.
  intros Hva H. unfold GroupGazeForce.group_force in H.
  inv_bind H. inv_bind H. inv_bind H. injection H as <-.
  apply Forall_lookup_2. intros k v Hk.
  apply lookup_zip_with_Some in Hk as (rot & d & -> & Hrot & _).
  rewrite list_lookup_fmap in Hrot.
  destruct (zip_with GroupGazeForce.com_angle r1 _ !! k) as [a|] eqn:Ha; [|discriminate].
  simpl in Hrot. injection Hrot as <-.
  apply lookup_zip_with_Some in Ha as (d' & c' & -> & _ & _).
  rewrite (excess_wide _ _ _ Hva), radians_zero. apply vscale_zero_l.
Qed.

(** With a vision angle of 180 degrees or more GroupGazeForce does nothing:
    whenever it returns, it returns the zero matrix. *)
Theorem gaze_wide_vision (f : Force) (st : list agent) (va : R) (F : list vec) :
  state f = Some st -> get_or (config f) "fov_phi" 100 = Ok va -> 180 <= va ->
  GroupGazeForce.get_force group_center f = Ok F ->
  F = zeros (length st).
Proof.
  intros Hst Hcfg Hva H.
  unfold GroupGazeForce.get_force, state_rows in H. rewrite Hst, Hcfg in H.
  simpl in H. inv_bind H. apply times_factor_inv in H as (k & _ & ->).
  assert (Hr' : r = zeros (length st)).
  { destruct (groups f) as [gs|]; simpl in Hr; [|injection Hr as <-; reflexivity].
    apply (foldM_unchanged _ _ _ _) in Hr; [exact Hr|].
    intros forces g forces' Hbody.
    destruct (Nat.leb (length g) 1); [injection Hbody as <-; reflexivity|].
    inv_bind Hbody.
    apply (iadd_rows_zero _ _ _ _ Hbody (gaze_group_force_wide _ _ _ _ _ Hva Hr0)). }
  rewrite Hr'. unfold zeros. rewrite fmap_replicate, vtimes_zero. reflexivity.
Qed.

(** A configured value of zero counts as not configured: a vision angle of
    0 gives the force of the default angle of 100 degrees. *)
Theorem gaze_zero_vision_is_default (f : Force) (cfg : gmap string R) :
  config f = PDict cfg -> cfg !! "fov_phi" = Some 0 ->
  get_or (config f) "fov_phi" 100 = Ok 100 /\
  GroupGazeForce.get_force group_center f =
    GroupGazeForce.get_force group_center
      (with_config f (PDict (delete "fov_phi" cfg))).
Proof.
  intros Hcfg Hzero.
  assert (Hget : get_or (config f) "fov_phi" 100 = Ok 100).
  { unfold get_or. rewrite Hcfg. simpl. rewrite Hzero. unfold Rnonzero.
    destruct (Req_dec_T 0 0) as [_|Hn]; [reflexivity | contradiction]. }
  split; [exact Hget|].
  unfold GroupGazeForce.get_force. rewrite Hget.
  unfold get_or. simpl. rewrite lookup_delete_eq. reflexivity.
Qed.

End Vision.

(** The pair of [three_agents], one member walking away from the other, with
    a vision angle of 180 degrees. *)
Lemma gaze_wide_vision_example :
  exists F, GroupGazeForce.get_force group_center_mean (gaze_with_vision 180) = Ok F /\
    F = [vzero; vzero; vzero].
Proof.
  eexists. split; [reflexivity|].
  apply (gaze_wide_vision group_center_mean (gaze_with_vision 180) three_agents
           (if Rnonzero 180 then 180 else 100)); try reflexivity.
  unfold Rnonzero. destruct (Req_dec_T 180 0); lra.
Defined.

Lemma gaze_zero_vision_is_default_example :
  get_or (config (gaze_with_vision 0)) "fov_phi" 100 = Ok 100 /\
  GroupGazeForce.get_force group_center_mean (gaze_with_vision 0) =
    GroupGazeForce.get_force group_center_mean
      (with_config (gaze_with_vision 0) (PDict (delete "fov_phi" {[ "fov_phi" := 0 ]}))).
Proof.
  apply (gaze_zero_vision_is_default group_center_mean (gaze_with_vision 0)
           {[ "fov_phi" := 0 ]}); reflexivity.
Defined.

(** ** Sums over a group, overlapping groups, groups of one *)

(** The row GroupRepulsiveForce returns for a member of one group only. *)
Lemma repulsive_member_row (f : Force) (st members : list agent)
    (gs1 gs2 : list (list nat)) (group : list nat) (k i : nat) (a : agent)
    (cfg : gmap string R) (kf : R) (F : list vec) :
  state f = Some st -> groups f = Some (gs1 ++ group :: gs2) -> factor f = PNum kf ->
  config f = PDict cfg ->
  GroupRepulsiveForce.get_force f = Ok F ->
  take_rows st group = Ok members ->
  NoDup group -> (forall g, g ∈ gs1 ++ gs2 -> i ∉ g) ->
  group !! k = Some i -> st !! i = Some a ->
  F !! i =
    Some (vscale kf (vsub (vsum (pos <$> members))
                          (vscale (INR (length group)) (pos a)))).
Proof.
  intros Hst Hgs Hkf Hcfg H Hm Hnd Hi Hk Ha.
  unfold GroupRepulsiveForce.get_force, state_rows, get_or in H.
  rewrite Hcfg, Hst, Hgs, Hkf in H. simpl in H. inv_bind H. injection H as <-.
  destruct (isolated_member _ _ _ _ _ _ _ (frames_repulsive _ st) Hr Hi
              (lookup_lt_Some _ _ _ Ha)) as (mid & mid' & Hbody & Hmid & HF).
  rewrite Hm in Hbody. simpl in Hbody.
  destruct (take_rows_lookup _ _ _ _ _ Hm Hk) as (a' & Ha' & Hmk).
  rewrite Ha in Ha'. injection Ha' as <-.
  rewrite list_lookup_fmap, HF.
  rewrite (repulsive_inner_member group (pos <$> members) (pos <$> members) mid mid' k i
             (pos a) vzero Hbody Hnd Hk); [| |exact Hmid].
  - simpl. f_equal.
    rewrite sum_of_displacements, vadd_zero_l, length_fmap, (take_rows_length _ _ _ Hm).
    apply vtimes_vscale.
  - rewrite list_lookup_fmap, Hmk. reflexivity.
Qed.

Lemma sum_of_rows (kf n : R) (S : vec) (members : list agent) :
  vsum ((fun a => vscale kf (vsub S (vscale n (pos a)))) <$> members) =
  vscale kf (vsub (vscale (INR (length members)) S) (vscale n (vsum (pos <$> members)))).
Proof.
  induction members as [|a members IH].
  - unfold vsum, vscale, vsub, vzero; simpl. f_equal; lra.
  - cbn [fmap list_fmap vsum foldr length]. fold (vsum ((fun a => vscale kf (vsub S (vscale n (pos a)))) <$> members)).
    fold (vsum (pos <$> members)). rewrite IH, S_INR.
    destruct S as [s1 s2], (pos a) as [p1 p2], (vsum (pos <$> members)) as [m1 m2].
    unfold vadd, vscale, vsub; simpl. f_equal; lra.
Qed.

(** In GroupRepulsiveForce the rows of a group whose members belong to no
    other group add up to zero: the group as a whole is not pushed. *)
Theorem repulsive_group_sum_zero (f : Force) (st members : list agent)
    (gs1 gs2 : list (list nat)) (group : list nat) (cfg : gmap string R) (kf : R)
    (F rows : list vec) :
  state f = Some st -> groups f = Some (gs1 ++ group :: gs2) -> factor f = PNum kf ->
  config f = PDict cfg ->
  GroupRepulsiveForce.get_force f = Ok F ->
  take_rows st group = Ok members ->
  NoDup group -> (forall g i, g ∈ gs1 ++ gs2 -> i ∈ group -> i ∉ g) ->
  take_rows F group = Ok rows ->
  vsum rows = vzero.
Proof.
  intros Hst Hgs Hkf Hcfg H Hm Hnd Hdis Hrows.
  assert (Heq : rows =
            (fun a => vscale kf (vsub (vsum (pos <$> members))
                                      (vscale (INR (length group)) (pos a)))) <$> members).
  { apply list_eq. intros k. rewrite list_lookup_fmap.
    destruct (group !! k) as [i|] eqn:Hk.
    - destruct (take_rows_lookup _ _ _ _ _ Hm Hk) as (a & Ha & Hmk).
      destruct (take_rows_lookup _ _ _ _ _ Hrows Hk) as (v & Hv & Hrk).
      rewrite Hrk, Hmk. simpl. rewrite <- Hv.
      apply (repulsive_member_row f st members gs1 gs2 group k i a cfg kf F
               Hst Hgs Hkf Hcfg H Hm Hnd); [|exact Hk|exact Ha].
      intros g Hg. apply (Hdis g i Hg). apply list_elem_of_lookup. eauto.
    - apply lookup_ge_None in Hk.
      rewrite (lookup_ge_None_2 rows), (lookup_ge_None_2 members); [reflexivity| |].
      + rewrite (take_rows_length _ _ _ Hm). exact Hk.
      + rewrite (take_rows_length _ _ _ Hrows). exact Hk. }
  rewrite Heq, sum_of_rows, (take_rows_length _ _ _ Hm).
  destruct (vsum (pos <$> members)) as [s1 s2].
  unfold vscale, vsub, vzero; simpl. f_equal; ring.
Qed.

Lemma repulsive_group_sum_zero_example :
  exists F rows, GroupRepulsiveForce.get_force (repulsive_with_threshold 0.1) = Ok F /\
    take_rows F [0; 1]%nat = Ok rows /\ vsum rows = vzero.
Proof.
  eexists. eexists. split; [reflexivity|]. split; [reflexivity|].
  apply (repulsive_group_sum_zero (repulsive_with_threshold 0.1) three_agents
           [ {| pos := (1, 0); vel := (0, 0); goal := (5, 0); tau := 0.5 |};
             {| pos := (-1, 0); vel := (0, 0); goal := (5, 0); tau := 0.5 |} ]
           [] [] [0; 1]%nat {[ "threshold" := 0.1 ]} 1 _ _
           eq_refl eq_refl eq_refl eq_refl eq_refl eq_refl NoDup_pair).
  - intros g i Hg. apply elem_of_nil in Hg. contradiction.
  - reflexivity.
Defined.

Section Overlap.

Variable group_center : list vec -> vec.

(** Groups may overlap: an agent listed in both of two groups receives
    factor times the sum of what each group adds for it. *)
Theorem coherence_overlap (f : Force) (st : list agent) (g1 g2 : list nat)
    (k1 k2 i : nat) (kf : R) (F : list vec) :
  state f = Some st -> groups f = Some [g1; g2] -> factor f = PNum kf ->
  GroupCoherenceForce.get_force group_center f = Ok F ->
  NoDup g1 -> NoDup g2 -> g1 !! k1 = Some i -> g2 !! k2 = Some i ->
  exists v1 v2 c1 c2,
    GroupCoherenceForce.group_vectors group_center st g1 = Ok v1 /\
    GroupCoherenceForce.group_vectors group_center st g2 = Ok v2 /\
    v1 !! k1 = Some c1 /\ v2 !! k2 = Some c2 /\
    F !! i = Some (vscale kf (vadd c1 c2)).
Proof.
  intros Hst Hgs Hkf H Hnd1 Hnd2 Hk1 Hk2.
  unfold GroupCoherenceForce.get_force, state_rows in H. rewrite Hst, Hgs, Hkf in H.
  simpl in H. inv_bind H. injection H as <-.
  apply bind_Ok in Hr as (mid & Hmid0 & Hr).
  apply bind_Ok in Hmid0 as (v1 & Hv1 & Hr0).
  apply bind_Ok in Hr as (last & Hlast & Hr). injection Hr as <-.
  apply bind_Ok in Hlast as (v2 & Hv2 & Hr3).
  destruct (iadd_rows_inv _ _ _ _ Hr0) as (rows1 & Hrows1 & Hlen1 & _).
  destruct (iadd_rows_inv _ _ _ _ Hr3) as (rows2 & Hrows2 & Hlen2 & _).
  destruct (lookup_lt_is_Some_2 v1 k1) as [c1 Hc1].
  { rewrite Hlen1. apply lookup_lt_Some in Hk1. exact Hk1. }
  destruct (lookup_lt_is_Some_2 v2 k2) as [c2 Hc2].
  { rewrite Hlen2. apply lookup_lt_Some in Hk2. exact Hk2. }
  destruct (take_rows_lookup _ _ _ _ _ Hrows1 Hk1) as (z & Hz & _).
  pose proof Hz as Hz'. apply lookup_lt_Some in Hz'. unfold zeros in Hz'.
  rewrite length_replicate in Hz'. rewrite zeros_lookup in Hz by exact Hz'.
  injection Hz as <-.
  pose proof (iadd_rows_member _ _ _ _ _ _ _ _ Hr0 Hnd1 Hk1 Hc1 (zeros_lookup _ _ Hz'))
    as Hmid.
  pose proof (iadd_rows_member _ _ _ _ _ _ _ _ Hr3 Hnd2 Hk2 Hc2 Hmid) as HF.
  exists v1, v2, c1, c2. repeat (split; [assumption|]).
  rewrite list_lookup_fmap, HF. simpl. rewrite vadd_zero_l, vtimes_vscale. reflexivity.
Qed.

Lemma coherence_alt_row (f : Force) (st members : list agent)
    (gs1 gs2 : list (list nat)) (group : list nat) (k i : nat) (a : agent)
    (kf : R) (F : list vec) :
  state f = Some st -> groups f = Some (gs1 ++ group :: gs2) -> factor f = PNum kf ->
  GroupCoherenceForceAlt.get_force group_center f = Ok F ->
  take_rows st group = Ok members ->
  NoDup group -> (forall g, g ∈ gs1 ++ gs2 -> i ∉ g) ->
  group !! k = Some i -> st !! i = Some a ->
  let threshold := (INR (length group) - 1) / 2 in
  let d := vsub (group_center (pos <$> members)) (pos a) in
  F !! i = Some (vscale kf (vtimes d (GroupCoherenceForceAlt.softened_factor threshold (norm d)))).
Proof.
  intros Hst Hgs Hkf H Hm Hnd Hi Hk Ha threshold d.
  destruct (GroupCoherenceForceAlt.group_vectors group_center st group)
    as [vectors|err] eqn:Hv.
  2: { unfold GroupCoherenceForceAlt.group_vectors in Hv. rewrite Hm in Hv. discriminate. }
  pose proof (coherence_alt_group_vectors_lookup _ _ _ _ _ _ _ _ Hv Hm Hk Ha) as Hrow.
  unfold GroupCoherenceForceAlt.get_force, state_rows in H. rewrite Hst, Hgs, Hkf in H.
  simpl in H. inv_bind H. injection H as <-.
  rewrite list_lookup_fmap.
  rewrite (isolated_member_iadd _ _ _ _ _ _ _ _ _ _ Hr Hi
             (lookup_lt_Some _ _ _ Ha) Hnd Hk Hv Hrow).
  simpl. rewrite vtimes_vscale. reflexivity.
Qed.

End Overlap.

Lemma mean_of_one (p : vec) : group_center_mean [p] = p.
Proof.
  destruct p as [x y]. unfold group_center_mean, vsum, vadd, vzero; simpl. f_equal; lra.
Qed.

Lemma vsub_self (p : vec) : vsub p p = vzero.
Proof. unfold vsub, vzero. f_equal; lra. Qed.

(** A group of one member exerts no force on it in any of the four group
    variants (the centroid being the mean of the member positions), for an
    agent that is in no other group. *)
Theorem singleton_group_no_force (group_center : list vec -> vec) (f : Force)
    (st : list agent) (gs1 gs2 : list (list nat)) (i : nat) (a : agent) (kf : R) :
  state f = Some st -> groups f = Some (gs1 ++ [i] :: gs2) -> factor f = PNum kf ->
  (forall g, g ∈ gs1 ++ gs2 -> i ∉ g) -> st !! i = Some a ->
  (forall F, GroupCoherenceForce.get_force group_center_mean f = Ok F ->
     F !! i = Some vzero) /\
  (forall F, GroupCoherenceForceAlt.get_force group_center_mean f = Ok F ->
     F !! i = Some vzero) /\
  (forall F cfg, config f = PDict cfg -> GroupRepulsiveForce.get_force f = Ok F ->
     F !! i = Some vzero) /\
  (forall F, GroupGazeForce.get_force group_center f = Ok F -> F !! i = Some vzero).
Proof.
  intros Hst Hgs Hkf Hi Ha.
  assert (Hm : take_rows st [i] = Ok [a]) by (simpl; rewrite Ha; reflexivity).
  assert (Hnd : NoDup [i]) by (apply NoDup_singleton).
  split; [|split; [|split]].
  - intros F H.
    rewrite (coherence_row group_center_mean f st [a] gs1 gs2 [i] 0 i a kf F
               Hst Hgs Hkf H Hm Hnd Hi eq_refl Ha).
    simpl. rewrite mean_of_one, vsub_self, norm_vzero, unit_vector_zero.
    destruct (Rlt_dec _ _); apply f_equal, vscale_zero_r.
  - intros F H.
    rewrite (coherence_alt_row group_center_mean f st [a] gs1 gs2 [i] 0 i a kf F
               Hst Hgs Hkf H Hm Hnd Hi eq_refl Ha).
    simpl. rewrite mean_of_one, vsub_self. f_equal.
    unfold vscale, vtimes, vzero; simpl. f_equal; lra.
  - intros F cfg Hcfg H.
    rewrite (repulsive_member_row f st [a] gs1 gs2 [i] 0 i a cfg kf F
               Hst Hgs Hkf Hcfg H Hm Hnd Hi eq_refl Ha).
    f_equal. cbn [fmap list_fmap length vsum foldr INR].
    destruct (pos a) as [x y].
    unfold vscale, vsub, vadd, vzero; simpl. f_equal; lra.
  - intros F H.
    apply (gaze_small_group_row group_center f st gs1 gs2 [i] i F Hst Hgs H Hi
             (lookup_lt_Some _ _ _ Ha)).
    simpl. lia.
Qed.

(** The first two agents of [three_agents] in two overlapping groups. *)
Lemma coherence_overlap_example :
  exists F c1 c2,
    GroupCoherenceForce.get_force group_center_mean
      (set_state (new "GroupCoherenceForce") three_agents
         (Some [[0; 1]; [0; 2]]%nat) None None) = Ok F /\
    F !! 0%nat = Some (vscale 1 (vadd c1 c2)).
Proof.
  eexists.
  destruct (coherence_overlap group_center_mean
              (set_state (new "GroupCoherenceForce") three_agents
                 (Some [[0; 1]; [0; 2]]%nat) None None)
              three_agents [0; 1]%nat [0; 2]%nat 0 0 0 1 _
              eq_refl eq_refl eq_refl eq_refl)
    as (v1 & v2 & c1 & c2 & _ & _ & _ & _ & HF);
    try (apply (bool_decide_unpack _); reflexivity); try reflexivity.
  exists c1, c2. split; [reflexivity | exact HF].
Defined.

(** Every agent of [three_agents] in a group of its own. *)
Lemma singleton_group_no_force_example :
  exists F, GroupCoherenceForce.get_force group_center_mean
              (set_state (new "GroupCoherenceForce") three_agents
                 (Some [[0]; [1]; [2]]%nat) None None) = Ok F /\
    F !! 1%nat = Some vzero.
Proof.
  eexists. split; [reflexivity|].
  match goal with
  | |- ?F !! _ = _ =>
      set (F0 := F);
      destruct (singleton_group_no_force group_center_mean
                  (set_state (new "GroupCoherenceForce") three_agents
                     (Some [[0]; [1]; [2]]%nat) None None)
                  three_agents [[0%nat]] [[2%nat]] 1
                  {| pos := (-1, 0); vel := (0, 0); goal := (5, 0); tau := 0.5 |} 1
                  eq_refl eq_refl eq_refl) as (Hc & _)
  end.
  - intros g Hg Hin. apply elem_of_cons in Hg as [->|Hg].
    + apply list_elem_of_singleton in Hin. discriminate.
    + apply list_elem_of_singleton in Hg as ->.
      apply list_elem_of_singleton in Hin. discriminate.
  - reflexivity.
  - apply Hc. reflexivity.
Defined.

(** ** The two potential-based variants *)

Lemma vsum_vscale (c : R) (row : list vec) :
  vsum (vscale c <$> row) = vscale c (vsum row).
Proof.
  induction row as [|v row IH].
  - unfold vsum, vscale, vzero; simpl. f_equal; lra.
  - cbn [fmap list_fmap vsum foldr]. fold (vsum (vscale c <$> row)). fold (vsum row).
    rewrite IH. destruct v as [x y], (vsum row) as [s1 s2].
    unfold vadd, vscale; simpl. f_equal; lra.
Qed.

Lemma negated_negated (grad : list (list vec)) :
  SpaceRepulsiveForce.negated (SpaceRepulsiveForce.negated grad) = grad.
Proof.
  unfold SpaceRepulsiveForce.negated. rewrite <- list_fmap_compose.
  rewrite <- (list_fmap_id grad) at 2. apply list_fmap_ext. intros _ row _. simpl.
  rewrite <- list_fmap_compose. rewrite <- (list_fmap_id row) at 2.
  apply list_fmap_ext. intros _ [x y] _. unfold vscale; simpl. f_equal; lra.
Qed.

Lemma weighted_sum (kf : R) (wrow : list R) (grow : list vec) :
  vtimes (vsum (zip_with vscale wrow (vscale (-1) <$> grow))) kf =
  vscale (- kf) (vsum (zip_with vscale wrow grow)).
Proof.
  revert grow. induction wrow as [|x wrow IH]; intros [|v grow];
    try (unfold vtimes, vscale, vsum, vzero; simpl; f_equal; lra).
  cbn [fmap list_fmap zip_with vsum foldr].
  fold (vsum (zip_with vscale wrow (vscale (-1) <$> grow))).
  fold (vsum (zip_with vscale wrow grow)).
  specialize (IH grow).
  destruct v as [a b], (vsum (zip_with vscale wrow (vscale (-1) <$> grow))) as [s1 s2],
    (vsum (zip_with vscale wrow grow)) as [t1 t2].
  unfold vtimes, vscale, vadd in *; simpl in *.
  injection IH as H1 H2. f_equal; nra.
Qed.

Section Potentials.

Variable grad_r_aB :
  Space -> pyval -> pyval -> option (list agent) -> result (list (list vec)).
Variable grad_r_ab :
  pyval -> pyval -> pyval -> option (list agent) -> result (list (list vec)).
Variable fov :
  pyval -> pyval -> option (list vec) -> list (list vec) -> result (list (list R)).

Lemma weighted_rows (w : list (list R)) (grad : list (list vec)) :
  Forall2 (fun (wrow : list R) (grow : list vec) => length wrow = length grow) w grad ->
  PedRepulsiveForce.weighted w (SpaceRepulsiveForce.negated grad) =
  Ok (zip_with (fun (wrow : list R) (grow : list vec) =>
                  zip_with vscale wrow (vscale (-1) <$> grow)) w grad).
Proof.
  intros Hshape. unfold PedRepulsiveForce.weighted.
  rewrite broadcast_same_length.
  2: { unfold SpaceRepulsiveForce.negated. rewrite length_fmap.
       exact (Forall2_length _ _ _ Hshape). }
  simpl. unfold SpaceRepulsiveForce.negated.
  induction Hshape as [|wrow grow w grad Hlen Hshape IH]; [reflexivity|].
  cbn [fmap list_fmap zip_with PedRepulsiveForce.sequence].
  rewrite broadcast_same_length by (rewrite length_fmap; exact Hlen).
  cbn [mbind result_bind]. 
  change (list_fmap (list vec) (list vec)) with (@fmap list _ (list vec) (list vec)).
  change (list_fmap vec vec) with (@fmap list _ vec vec) in IH |- *.
  rewrite IH. reflexivity.
Qed.

(** With a space, SpaceRepulsiveForce passes the configured [u0] and [r]
    (None for a key that is not configured) to the potential, returns one
    row per row of its gradient, minus [factor] times the sum of the row over
    the obstacles, and raises what the potential raises. *)
Theorem space_force_sums_gradient (f : Force) (sp : Space) (cfg : gmap string R)
    (kf : R) :
  space f = Some sp -> config f = PDict cfg -> factor f = PNum kf ->
  SpaceRepulsiveForce.get_force grad_r_aB f =
    match grad_r_aB sp (opt_pyval (cfg !! "u0")) (opt_pyval (cfg !! "r")) (state f) with
    | Ok grad => Ok ((fun row : list vec => vscale (- kf) (vsum row)) <$> grad)
    | Raise e => Raise e
    end.
Proof.
  intros Hsp Hcfg Hkf.
  unfold SpaceRepulsiveForce.get_force, SpaceRepulsiveForce.obstacle_forces.
  rewrite Hsp, Hcfg, Hkf. simpl.
  destruct (grad_r_aB sp _ _ _) as [grad|e]; [|reflexivity].
  simpl. f_equal. unfold SpaceRepulsiveForce.negated.
  rewrite <- !list_fmap_compose. apply list_fmap_ext. intros _ row _. simpl.
  rewrite vsum_vscale. destruct (vsum row) as [s1 s2].
  unfold vtimes, vscale; simpl. f_equal; lra.
Qed.

(** PedRepulsiveForce evaluates the field of view on the gradient itself
    (the force is negated a second time), and when the weights have the
    shape of the gradient it returns, per agent, minus [factor] times the
    weighted sum of its row of the gradient. *)
Theorem ped_force_weighted_sum (f : Force) (cfg : gmap string R) (kf : R)
    (grad : list (list vec)) (w : list (list R)) :
  config f = PDict cfg -> factor f = PNum kf ->
  grad_r_ab (time_step f) (opt_pyval (cfg !! "v0")) (opt_pyval (cfg !! "sigma"))
            (state f) = Ok grad ->
  fov (opt_pyval (cfg !! "fov_phi")) (opt_pyval (cfg !! "fov_factor"))
      (goal_vector f) grad = Ok w ->
  Forall2 (fun (wrow : list R) (grow : list vec) => length wrow = length grow) w grad ->
  PedRepulsiveForce.get_force grad_r_ab fov f =
    Ok (zip_with (fun (wrow : list R) (grow : list vec) =>
                    vscale (- kf) (vsum (zip_with vscale wrow grow))) w grad).
Proof.
  intros Hcfg Hkf Hgrad Hw Hshape.
  unfold PedRepulsiveForce.get_force. rewrite Hcfg, Hkf. simpl.
  rewrite Hgrad. simpl. rewrite negated_negated, Hw. simpl.
  rewrite (weighted_rows _ _ Hshape). simpl. f_equal.
  clear Hw Hgrad. induction Hshape as [|wrow grow w grad Hlen Hshape IH]; [reflexivity|].
  cbn [fmap list_fmap zip_with]. f_equal; [apply weighted_sum | exact IH].
Qed.

(** A gradient or a field of view that raises makes PedRepulsiveForce raise
    the same exception, and weights of another shape than the gradient with
    more than one row make it raise [ValueError]. *)
Theorem ped_force_errors (f : Force) (cfg : gmap string R) :
  config f = PDict cfg ->
  (forall e,
     grad_r_ab (time_step f) (opt_pyval (cfg !! "v0")) (opt_pyval (cfg !! "sigma"))
               (state f) = Raise e ->
     PedRepulsiveForce.get_force grad_r_ab fov f = Raise e) /\
  (forall grad e,
     grad_r_ab (time_step f) (opt_pyval (cfg !! "v0")) (opt_pyval (cfg !! "sigma"))
               (state f) = Ok grad ->
     fov (opt_pyval (cfg !! "fov_phi")) (opt_pyval (cfg !! "fov_factor"))
         (goal_vector f) grad = Raise e ->
     PedRepulsiveForce.get_force grad_r_ab fov f = Raise e) /\
  (forall grad w,
     grad_r_ab (time_step f) (opt_pyval (cfg !! "v0")) (opt_pyval (cfg !! "sigma"))
               (state f) = Ok grad ->
     fov (opt_pyval (cfg !! "fov_phi")) (opt_pyval (cfg !! "fov_factor"))
         (goal_vector f) grad = Ok w ->
     length w <> length grad -> length w <> 1%nat -> length grad <> 1%nat ->
     PedRepulsiveForce.get_force grad_r_ab fov f = Raise ValueError).
Proof.
  intros Hcfg. split; [|split].
  - intros e Hgrad. unfold PedRepulsiveForce.get_force. rewrite Hcfg. simpl.
    rewrite Hgrad. reflexivity.
  - intros grad e Hgrad Hw. unfold PedRepulsiveForce.get_force. rewrite Hcfg. simpl.
    rewrite Hgrad. simpl. rewrite negated_negated, Hw. reflexivity.
  - intros grad w Hgrad Hw Hne H1 H2.
    unfold PedRepulsiveForce.get_force. rewrite Hcfg. simpl.
    rewrite Hgrad. simpl. rewrite negated_negated, Hw. simpl.
    unfold PedRepulsiveForce.weighted.
    rewrite broadcast_mismatch; [reflexivity| | |].
    + unfold SpaceRepulsiveForce.negated. rewrite length_fmap. exact Hne.
    + exact H1.
    + unfold SpaceRepulsiveForce.negated. rewrite length_fmap. exact H2.
Qed.

End Potentials.

Lemma space_force_sums_gradient_example :
  SpaceRepulsiveForce.get_force position_gradient
    (two_agents_two_walls "space_repulsive_force") =
  Ok [vscale (- 1) (vsum [(0, 0); (0, 0)]); vscale (- 1) (vsum [(0, 1); (0, 1)])].
Proof.
  etransitivity;
    [exact (space_force_sums_gradient position_gradient
              (two_agents_two_walls "space_repulsive_force")
              [[(0, 5)]; [(0, -5)]] ∅ 1 eq_refl eq_refl eq_refl)|].
  reflexivity.
Defined.

Lemma ped_force_weighted_sum_example :
  PedRepulsiveForce.get_force separation_gradient all_in_view
    (two_agents_two_walls "ped_repulsive_force") =
  Ok [vscale (- 1) (vsum (zip_with vscale [1; 1] [vsub (0, 0) (0, 0); vsub (0, 0) (0, 1)]));
      vscale (- 1) (vsum (zip_with vscale [1; 1] [vsub (0, 1) (0, 0); vsub (0, 1) (0, 1)]))].
Proof.
  apply (ped_force_weighted_sum separation_gradient all_in_view
           (two_agents_two_walls "ped_repulsive_force") ∅ 1
           [[vsub (0, 0) (0, 0); vsub (0, 0) (0, 1)];
            [vsub (0, 1) (0, 0); vsub (0, 1) (0, 1)]]
           [[1; 1]; [1; 1]] eq_refl eq_refl eq_refl eq_refl).
  repeat constructor.
Defined.

(** A field of view that returns one row of weights too many. *)
Lemma ped_force_errors_example :
  PedRepulsiveForce.get_force separation_gradient
    (fun _ _ _ _ => Ok [[1; 1]; [1; 1]; [1; 1]])
    (two_agents_two_walls "ped_repulsive_force") = Raise ValueError.
Proof.
  apply (proj2 (proj2 (ped_force_errors separation_gradient
                         (fun _ _ _ _ => Ok [[1; 1]; [1; 1]; [1; 1]])
                         (two_agents_two_walls "ped_repulsive_force") ∅ eq_refl))
           [[vsub (0, 0) (0, 0); vsub (0, 0) (0, 1)];
            [vsub (0, 1) (0, 0); vsub (0, 1) (0, 1)]]
           [[1; 1]; [1; 1]; [1; 1]] eq_refl eq_refl); simpl; lia.
Defined.
